(** * The Hungarian matcher of DAB-DETR (models/matcher.py)

    A shallow embedding of [HungarianMatcher] and of the tensor operations
    its [forward] method is written with, followed by the properties of the
    matcher.

    Tensors are nested lists, row-major: a tensor of shape [[B, Q, K]] is a
    list of [B] lists of [Q] lists of [K] scalars.  The shape of a tensor
    with an empty outer dimension is therefore not recorded; the places of
    [forward] where torch looks at such a shape are written out below.

    Floating-point numbers are kept abstract: [forward] is written over an
    interface [Scalar] of the operations the source applies to tensor
    entries, so that every statement holds for whichever arithmetic
    implements the interface.  The real numbers are one such arithmetic;
    the sample batches are written over them. *)

From stdpp Require Import base tactics option list numbers sorting.
From Stdlib Require Import Reals Lra.

(** ** Python exceptions and the error monad *)

Inductive exn : Set :=
| AssertionError   (* a failed [assert] *)
| IndexError       (* an index out of range *)
| RuntimeError     (* torch: shapes that do not fit *)
| ValueError.      (* scipy: a cost matrix it refuses *)

Inductive result (A : Type) : Type :=
| Ok (a : A)
| Raise (e : exn).
Arguments Ok {A} a.
Arguments Raise {A} e.

Global Instance result_ret : MRet result := λ A a, Ok a.
Global Instance result_bind : MBind result := λ A B f m,
  match m with Ok a => f a | Raise e => Raise e end.
Global Instance result_fmap : FMap result := λ A B f m,
  match m with Ok a => Ok (f a) | Raise e => Raise e end.

Definition is_Ok {A} (m : result A) : Prop := ∃ a, m = Ok a.

(** ** Scalars

    The operations [forward] applies to the entries of its tensors, the
    literals it writes, the test [w != 0] of the constructor, and what the
    assignment solver asks of a cost: an order, and whether the entry is a
    number at all (neither NaN nor infinite). *)

Class Scalar (F : Type) : Type := {
  one : F;                      (* the literal 1 *)
  alpha : F;                    (* the literal 0.25 *)
  gamma : F;                    (* the literal 2.0 *)
  eps : F;                      (* the literal 1e-8 *)
  add : F → F → F;
  sub : F → F → F;
  mul : F → F → F;
  neg : F → F;
  pow : F → F → F;             (* [x ** y] *)
  log : F → F;                  (* [x.log()] *)
  sigmoid : F → F;              (* [x.sigmoid()] *)
  nonzero : F → bool;           (* [x != 0] *)
  ltb : F → F → bool;          (* [x < y] *)
  finite : F → bool;
}.

Section Matcher.

Context {F : Type} `{Scalar F}.

(** ** The matcher object and its constructor *)

Record HungarianMatcher : Type := {
  cost_class : F;
  cost_bbox : F;
  cost_giou : F;
}.

(** [__init__]: the three weights are stored, then the assertion is
    checked. *)
Definition HungarianMatcher_init (cost_class cost_bbox cost_giou : F)
  : result HungarianMatcher :=
  let self := {| cost_class := cost_class; cost_bbox := cost_bbox;
                 cost_giou := cost_giou |} in
  if nonzero cost_class || nonzero cost_bbox || nonzero cost_giou
  then Ok self
  else Raise AssertionError.

(** [build_matcher(args)] *)
Record Args : Type := {
  set_cost_class : F;
  set_cost_bbox : F;
  set_cost_giou : F;
}.

Definition build_matcher (args : Args) : result HungarianMatcher :=
  HungarianMatcher_init (set_cost_class args) (set_cost_bbox args)
    (set_cost_giou args).

(** ** Tensor operations

    The torch operations [forward] uses, on nested lists.  Every place
    where torch raises is a [Raise]. *)

(** [torch.cat(ts)] along the first dimension. An empty list of tensors is
    refused. *)
Definition torch_cat {A} (ts : list (list A)) : result (list A) :=
  match ts with
  | [] => Raise RuntimeError
  | _ => Ok (mjoin ts)
  end.

(** [torch.cat([a, b], dim=-1)] of two matrices: the rows are joined
    pairwise, and the two row counts must agree. *)
Definition cat_last {A} (a b : list (list A)) : result (list (list A)) :=
  if decide (length a = length b) then Ok (zip_with app a b)
  else Raise RuntimeError.

(** [row[c]] for an int64 index [c]: a negative index counts from the end,
    and an index outside [-n .. n-1] raises. *)
Definition getitem {A} (row : list A) (c : Z) : result A :=
  let n := Z.of_nat (length row) in
  let c' := if decide (c < 0)%Z then (c + n)%Z else c in
  if decide (0 ≤ c' < n)%Z then
    match row !! Z.to_nat c' with
    | Some x => Ok x
    | None => Raise IndexError
    end
  else Raise IndexError.

(** [m[:, ids]]: every row is indexed by the whole index tensor. *)
Definition index_cols {A} (m : list (list A)) (ids : list Z)
  : result (list (list A)) :=
  mapM (λ row, mapM (getitem row) ids) m.

(** An element-wise operation on two tensors of the same shape.  (Torch
    also broadcasts a dimension of size one; [forward] never relies on it,
    and here differing sizes raise.) *)
Definition zip_same {A B C} (f : A → B → C) (a : list A) (b : list B)
  : result (list C) :=
  if decide (length a = length b) then Ok (zip_with f a b)
  else Raise RuntimeError.

Definition zip_same2 {A B C} (f : A → B → C)
    (a : list (list A)) (b : list (list B)) : result (list (list C)) :=
  if decide (length a = length b)
  then mapM (λ xy, zip_same f xy.1 xy.2) (zip a b)
  else Raise RuntimeError.

(** [t.unsqueeze(1).repeat(1, n, 1)]: every row is repeated [n] times. *)
Definition unsqueeze1_repeat {A} (n : nat) (t : list A) : list (list A) :=
  replicate n <$> t.

(** [t.unsqueeze(0).repeat(n, 1, 1)]: the whole tensor is repeated [n]
    times. *)
Definition unsqueeze0_repeat {A} (n : nat) (t : list A) : list (list A) :=
  replicate n t.

(** [C.view(bs, q, -1)] of a matrix of [bs * q] rows: the rows are grouped
    by [q].  With [bs * q = 0] torch cannot infer the last dimension and
    raises. *)
Definition view3 {A} (bs q : nat) (C : list (list A))
  : result (list (list (list A))) :=
  if decide (bs * q = 0) then Raise RuntimeError
  else if decide (length C = bs * q)
       then Ok ((λ b, take q (drop (b * q) C)) <$> seq 0 bs)
       else Raise RuntimeError.

(** The size of the last dimension of a three-dimensional tensor. *)
Definition last_dim {A} (C : list (list (list A))) : nat :=
  match C with
  | (row :: _) :: _ => length row
  | _ => 0
  end.

(** [C.split(sizes, -1)]: consecutive column ranges of the widths in
    [sizes], which must add up to the last dimension. *)
Fixpoint split_last {A} (sizes : list nat) (off : nat)
    (C : list (list (list A))) : list (list (list (list A))) :=
  match sizes with
  | [] => []
  | n :: sizes' =>
      ((λ m : list (list A), (λ row, take n (drop off row)) <$> m) <$> C)
        :: split_last sizes' (off + n) C
  end.

Definition split {A} (sizes : list nat) (C : list (list (list A)))
  : result (list (list (list (list A)))) :=
  if decide (sum_list sizes = last_dim C) then Ok (split_last sizes 0 C)
  else Raise RuntimeError.

(** [enumerate(l)] *)
Definition enumerate {A} (l : list A) : list (nat * A) := imap pair l.

(** [c[i]] on the first dimension, for [i] from [enumerate]. *)
Definition getitem0 {A} (c : list A) (i : nat) : result A :=
  match c !! i with
  | Some x => Ok x
  | None => Raise IndexError
  end.

(** ** What [forward] calls from outside this file *)

(** The pairwise geometric costs and the assignment solver.
    [linear_sum_assignment] is scipy's; it returns the row indices and the
    column indices of the assignment, or raises. *)
Class Externals : Type := {
  poly_l1 : list F → list F → F;
  obox_giou : list F → list F → F;
  linear_sum_assignment : list (list F) → result (list nat * list nat);
}.

Context {E : Externals}.

(** Modelled from the spec: [util.losses.matched_l1_loss] is not part of
    the sources.  It receives two tensors of shape [[R, G, 8]] holding, at
    [(r, g)], the polygon of prediction [r] and the polygon of target [g],
    and its first result is the [[R, G]] matrix of the L1 cost of each
    pair. *)
Definition matched_l1_loss (a b : list (list (list F)))
  : result (list (list F)) :=
  zip_same2 poly_l1 a b.

(** Modelled from the spec: [util.oriented_iou_loss.cal_giou] is not part
    of the sources.  It receives two tensors of shape [[R, G, 5]] of
    oriented boxes and returns the [[R, G]] matrix of the generalized-IoU
    cost of each pair. *)
Definition cal_giou (a b : list (list (list F))) : result (list (list F)) :=
  zip_same2 obox_giou a b.

(** ** Inputs and results of [forward] *)

Record Outputs : Type := {
  pred_logits : list (list (list F));   (* [B, Q, K] *)
  pred_boxes : list (list (list F));    (* [B, Q, 5] *)
  pred_polys : list (list (list F));    (* [B, Q, 8] *)
}.

Record Target : Type := {
  labels : list Z;                      (* [N] *)
  polys : list (list F);                (* [N, 8] *)
  boxes : list (list F);                (* [N, 4] *)
  theta : list (list F);                (* [N, 1] *)
}.

(** The values [forward] puts in a result tuple. *)
Inductive tensor : Type :=
| Int64Tensor (v : list Z)
| FloatTensor (v : list F).

(** [torch.as_tensor(i, dtype=torch.int64)] of an index array. *)
Definition as_tensor_int64 (i : list nat) : tensor :=
  Int64Tensor (Z.of_nat <$> i).

(** ** [forward] *)

(** The local variables of [forward] that the properties speak about. *)
Record Costs : Type := {
  bs : nat;
  num_queries : nat;
  t_cost_class : list (list F);
  t_cost_bbox : list (list F);
  t_cost_giou : list (list F);
  C : list (list F);
}.

(** The entries of [neg_cost_class] and [pos_cost_class]. *)
Definition neg_cost_class_entry (p : F) : F :=
  mul (mul (sub one alpha) (pow p gamma)) (neg (log (add (sub one p) eps))).
Definition pos_cost_class_entry (p : F) : F :=
  mul (mul alpha (pow (sub one p) gamma)) (neg (log (add p eps))).

(** The entries of [C]. *)
Definition final_cost_entry (self : HungarianMatcher) (bbox class giou : F)
  : F :=
  add (add (mul (cost_bbox self) bbox) (mul (cost_class self) class))
      (mul (cost_giou self) giou).

(** [forward] up to the final cost matrix [C], before it is reshaped.  The
    products with the three weights and the two sums of
    [self.cost_bbox * cost_bbox + self.cost_class * cost_class
     + self.cost_giou * cost_giou] are taken entry by entry, from left to
    right. *)
Definition forward_costs (self : HungarianMatcher) (outputs : Outputs)
    (targets : list Target) : result Costs :=
  let bs := length (pred_logits outputs) in
  let num_queries := length (hd [] (pred_logits outputs)) in
  let out_prob :=
    (λ row : list F, sigmoid <$> row) <$> mjoin (pred_logits outputs) in
  let out_oboxes := mjoin (pred_boxes outputs) in
  let out_polys := mjoin (pred_polys outputs) in
  tgt_ids ← torch_cat (labels <$> targets);
  tgt_polys ← torch_cat (polys <$> targets);
  tgt_boxes ← torch_cat (boxes <$> targets);
  tgt_theta ← torch_cat (theta <$> targets);
  tgt_oboxes ← cat_last tgt_boxes tgt_theta;
  let neg_cost_class :=
    (λ row : list F, neg_cost_class_entry <$> row) <$> out_prob in
  let pos_cost_class :=
    (λ row : list F, pos_cost_class_entry <$> row) <$> out_prob in
  pos_sel ← index_cols pos_cost_class tgt_ids;
  neg_sel ← index_cols neg_cost_class tgt_ids;
  cost_class_t ← zip_same2 sub pos_sel neg_sel;
  let num_gts := length tgt_ids in
  let out_polys_tmp := unsqueeze1_repeat num_gts out_polys in
  let tgt_polys_tmp := unsqueeze0_repeat (num_queries * bs) tgt_polys in
  cost_bbox_t ← matched_l1_loss out_polys_tmp tgt_polys_tmp;
  let out_oboxes_tmp := unsqueeze1_repeat num_gts out_oboxes in
  let tgt_oboxes_tmp := unsqueeze0_repeat (num_queries * bs) tgt_oboxes in
  cost_giou_t ← cal_giou out_oboxes_tmp tgt_oboxes_tmp;
  wb ← zip_same2
         (λ b c, add (mul (cost_bbox self) b) (mul (cost_class self) c))
         cost_bbox_t cost_class_t;
  C ← zip_same2 (λ bc g, add bc (mul (cost_giou self) g)) wb cost_giou_t;
  mret {| bs := bs; num_queries := num_queries;
          t_cost_class := cost_class_t; t_cost_bbox := cost_bbox_t;
          t_cost_giou := cost_giou_t; C := C |}.

(** The slices [c] that [forward] enumerates: [C.view(bs, num_queries,
    -1)] split by the target counts. *)
Definition forward_split (costs : Costs) (targets : list Target)
  : result (list (list (list (list F)))) :=
  C3 ← view3 (bs costs) (num_queries costs) (C costs);
  let sizes := (λ v, length (boxes v)) <$> targets in
  split sizes C3.

(** [forward]: every slice [c] is indexed by its own position and handed
    to the solver, and the two index arrays of every image are returned as
    a tuple of int64 tensors. *)
Definition forward (self : HungarianMatcher) (outputs : Outputs)
    (targets : list Target) : result (list (list tensor)) :=
  costs ← forward_costs self outputs targets;
  cs ← forward_split costs targets;
  indices ← mapM (λ ic, ci ← getitem0 ic.2 ic.1; linear_sum_assignment ci)
                 (enumerate cs);
  mret ((λ ij, [as_tensor_int64 ij.1; as_tensor_int64 ij.2]) <$> indices).

(** The matrices [c[i]] that [forward] hands to the solver, in order. *)
Definition solver_inputs (self : HungarianMatcher) (outputs : Outputs)
    (targets : list Target) : result (list (list (list F))) :=
  costs ← forward_costs self outputs targets;
  cs ← forward_split costs targets;
  mapM (λ ic, getitem0 ic.2 ic.1) (enumerate cs).

End Matcher.

Arguments HungarianMatcher : clear implicits.
Arguments Args : clear implicits.
Arguments Externals : clear implicits.
Arguments Outputs : clear implicits.
Arguments Target : clear implicits.
Arguments tensor : clear implicits.
Arguments Costs : clear implicits.

(** ** Valid batches *)

Section Validity.

Context {F : Type}.

(** A matrix of [r] rows of width [w], and a tensor of [b] such matrices. *)
Definition shape2 (m : list (list F)) (r w : nat) : Prop :=
  length m = r ∧ Forall (λ row, length row = w) m.

Definition shape3 (t : list (list (list F))) (b q w : nat) : Prop :=
  length t = b ∧ Forall (λ m, shape2 m q w) t.

(** A target of an image: [N] labels among [K] classes, [N] polygons, [N]
    axis boxes and [N] angles. *)
Definition valid_target (K : nat) (t : Target F) : Prop :=
  Forall (λ c, (0 ≤ c < Z.of_nat K)%Z) (labels t)
  ∧ shape2 (polys t) (length (labels t)) 8
  ∧ shape2 (boxes t) (length (labels t)) 4
  ∧ shape2 (theta t) (length (labels t)) 1.

(** A batch of [B] images with [Q] predictions each, over [K] classes. *)
Definition valid_batch (B Q K : nat) (outputs : Outputs F)
    (targets : list (Target F)) : Prop :=
  0 < B ∧ 0 < Q
  ∧ shape3 (pred_logits outputs) B Q K
  ∧ shape3 (pred_boxes outputs) B Q 5
  ∧ shape3 (pred_polys outputs) B Q 8
  ∧ length targets = B
  ∧ Forall (valid_target K) targets.

(** The number of targets of image [i]. *)
Definition num_targets (targets : list (Target F)) (i : nat) : nat :=
  from_option (λ t, length (labels t)) 0 (targets !! i).

(** The target counts of the images, and where the targets of image [i]
    start in the concatenation of all targets. *)
Definition counts (targets : list (Target F)) : list nat :=
  (λ v, length (labels v)) <$> targets.

Definition offset (targets : list (Target F)) (i : nat) : nat :=
  sum_list (take i (counts targets)).

End Validity.

(** ** The cost of one image, computed on its own *)

Section PerImage.

Context {F : Type} `{Scalar F} `{!Externals F}.

Global Instance scalar_inhabited : Inhabited F := populate one.

(** The classification cost of the spec, for the probability [p] of the
    target's class:
    α·(1−p)^γ·(−log(p+ε)) − (1−α)·p^γ·(−log(1−p+ε)). *)
Definition focal_cost (p : F) : F :=
  sub (mul (mul alpha (pow (sub one p) gamma)) (neg (log (add p eps))))
      (mul (mul (sub one alpha) (pow p gamma))
           (neg (log (add (sub one p) eps)))).

(** The weighted sum of the spec:
    w_class·cost_class + w_bbox·cost_bbox + w_giou·cost_giou. *)
Definition weighted_cost (self : HungarianMatcher F) (class bbox giou : F)
  : F :=
  add (add (mul (cost_class self) class) (mul (cost_bbox self) bbox))
      (mul (cost_giou self) giou).

(** A matrix given by its entries. *)
Definition tab {A} (R G : nat) (e : nat → nat → A) : list (list A) :=
  (λ r, e r <$> seq 0 G) <$> seq 0 R.

(** The three costs of prediction [q] of an image against target [t] of
    the same image. *)
Definition class_cost_at (logits : list (list F)) (tgt : Target F)
    (q t : nat) : F :=
  focal_cost (sigmoid ((logits !!! q) !!! Z.to_nat (labels tgt !!! t))).

Definition bbox_cost_at (polys8 : list (list F)) (tgt : Target F)
    (q t : nat) : F :=
  poly_l1 (polys8 !!! q) (polys tgt !!! t).

Definition giou_cost_at (boxes5 : list (list F)) (tgt : Target F)
    (q t : nat) : F :=
  obox_giou (boxes5 !!! q) ((boxes tgt !!! t) ++ (theta tgt !!! t)).

(** The [Q × N] cost matrix of one image, from its own predictions and its
    own targets only. *)
Definition image_cost (self : HungarianMatcher F)
    (logits boxes5 polys8 : list (list F)) (tgt : Target F) : list (list F) :=
  tab (length logits) (length (labels tgt))
    (λ q t, final_cost_entry self (bbox_cost_at polys8 tgt q t)
              (class_cost_at logits tgt q t) (giou_cost_at boxes5 tgt q t)).

Definition image_costs (self : HungarianMatcher F) (outputs : Outputs F)
    (targets : list (Target F)) : list (list (list F)) :=
  imap (λ i tgt, image_cost self (pred_logits outputs !!! i)
                   (pred_boxes outputs !!! i) (pred_polys outputs !!! i) tgt)
       targets.

(** The same three costs in the numbering of the batched matrices: row [r]
    of the flattened predictions against column [g] of the concatenated
    targets. *)
Definition flat_class_cost (outputs : Outputs F) (targets : list (Target F))
    (r g : nat) : F :=
  focal_cost (sigmoid ((mjoin (pred_logits outputs) !!! r)
                         !!! Z.to_nat (mjoin (labels <$> targets) !!! g))).

Definition flat_bbox_cost (outputs : Outputs F) (targets : list (Target F))
    (r g : nat) : F :=
  poly_l1 (mjoin (pred_polys outputs) !!! r) (mjoin (polys <$> targets) !!! g).

Definition flat_giou_cost (outputs : Outputs F) (targets : list (Target F))
    (r g : nat) : F :=
  obox_giou (mjoin (pred_boxes outputs) !!! r)
    (zip_with app (mjoin (boxes <$> targets)) (mjoin (theta <$> targets))
       !!! g).

(** The matcher that solves every image on its own. *)
Definition forward_per_image (self : HungarianMatcher F) (outputs : Outputs F)
    (targets : list (Target F)) : result (list (list (tensor F))) :=
  indices ← mapM linear_sum_assignment (image_costs self outputs targets);
  mret ((λ ij, [as_tensor_int64 ij.1; as_tensor_int64 ij.2]) <$> indices).

(** ** The contract of the assignment solver *)

Definition ncols (m : list (list F)) : nat := length (hd [] m).

Definition rectangular (m : list (list F)) : Prop :=
  Forall (λ row, length row = ncols m) m.

Definition all_finite (m : list (list F)) : Prop :=
  Forall (Forall (λ x, finite x = true)) m.

(** Every cost that reaches the solver is a finite number. *)
Definition finite_costs (self : HungarianMatcher F) (outputs : Outputs F)
    (targets : list (Target F)) : Prop :=
  Forall all_finite (image_costs self outputs targets).

(** An assignment for [nr] rows and [nc] columns: [min nr nc] pairs, the
    row indices increasing, the column indices distinct, all in range. *)
Definition assignment_ok (nr nc : nat) (rc : list nat * list nat) : Prop :=
  length rc.1 = nr `min` nc ∧ length rc.2 = nr `min` nc
  ∧ StronglySorted lt rc.1 ∧ Forall (λ i, i < nr) rc.1
  ∧ NoDup rc.2 ∧ Forall (λ j, j < nc) rc.2.

(** What scipy documents of [linear_sum_assignment]: on a matrix it
    accepts, the result is an assignment as above; it accepts every matrix
    with an empty dimension and every matrix of finite entries. *)
Definition lsa_contract : Prop :=
  ∀ m, rectangular m →
    (∀ rc, linear_sum_assignment m = Ok rc →
           assignment_ok (length m) (ncols m) rc)
    ∧ (length m = 0 ∨ ncols m = 0 ∨ all_finite m →
       is_Ok (linear_sum_assignment m)).

End PerImage.

(** ** Batches at the edges *)

(** An exception is raised. *)
Definition raises {A} (m : result A) : Prop := ∃ e, m = Raise e.

Section Edges.

Context {F : Type}.

(** The outputs of [B] images with [Q] predictions each, and a list of at
    least one and at most [B] targets: [forward] never compares the number
    of targets entries with the batch size. *)
Definition prefix_batch (B Q K : nat) (outputs : Outputs F)
    (targets : list (Target F)) : Prop :=
  0 < Q
  ∧ shape3 (pred_logits outputs) B Q K
  ∧ shape3 (pred_boxes outputs) B Q 5
  ∧ shape3 (pred_polys outputs) B Q 8
  ∧ 0 < length targets ≤ B
  ∧ Forall (valid_target K) targets.

(** The outputs of the first [n] images of a batch. *)
Definition take_images (n : nat) (outputs : Outputs F) : Outputs F := {|
  pred_logits := take n (pred_logits outputs);
  pred_boxes := take n (pred_boxes outputs);
  pred_polys := take n (pred_polys outputs);
|}.

(** The outputs of two batches, one after the other. *)
Definition cat_outputs (o1 o2 : Outputs F) : Outputs F := {|
  pred_logits := pred_logits o1 ++ pred_logits o2;
  pred_boxes := pred_boxes o1 ++ pred_boxes o2;
  pred_polys := pred_polys o1 ++ pred_polys o2;
|}.

(** The class that the index [c] selects among [K] classes when it is
    negative and not below [-K]. *)
Definition wrap_label (K : nat) (c : Z) : Z :=
  if decide (- Z.of_nat K ≤ c < 0)%Z then (c + Z.of_nat K)%Z else c.

Definition wrap_labels (K : nat) (t : Target F) : Target F := {|
  labels := wrap_label K <$> labels t;
  polys := polys t;
  boxes := boxes t;
  theta := theta t;
|}.

End Edges.

(** ** A reference solver

    An exact solver by enumeration, which meets the contract: every
    matching of [min nr nc] pairs with increasing rows is listed, and the
    first one of least total cost is returned. *)

Section Exhaustive.

Context {F : Type} `{Scalar F}.

(** Every way to take one element out of a list. *)
Fixpoint picks {A} (l : list A) : list (A * list A) :=
  match l with
  | [] => []
  | x :: xs => (x, xs) :: ((λ p : A * list A, (p.1, x :: p.2)) <$> picks xs)
  end.

(** The matchings of [k] pairs between [rows], taken in order, and
    [cols]. *)
Fixpoint matchings (rows cols : list nat) (k : nat) : list (list (nat * nat)) :=
  match k with
  | 0 => [[]]
  | S k' =>
      match rows with
      | [] => []
      | r :: rows' =>
          (picks cols ≫= λ p, ((r, p.1) ::.) <$> matchings rows' p.2 k')
          ++ matchings rows' cols k
      end
  end.

Definition total_cost (m : list (list F)) (a : list (nat * nat)) : option F :=
  match (λ ij : nat * nat, m !! ij.1 ≫= (.!! ij.2)) <$> a with
  | Some c :: cs => Some (foldl (λ acc oc, from_option (add acc) acc oc) c cs)
  | _ => None
  end.

Definition cheaper (m : list (list F)) (a b : list (nat * nat)) : bool :=
  match total_cost m a, total_cost m b with
  | Some x, Some y => ltb x y
  | _, _ => false
  end.

Fixpoint least (m : list (list F)) (best : list (nat * nat))
    (rest : list (list (nat * nat))) : list (nat * nat) :=
  match rest with
  | [] => best
  | a :: rest' => least m (if cheaper m a best then a else best) rest'
  end.

Definition exhaustive_lsa (m : list (list F)) : result (list nat * list nat) :=
  let nr := length m in
  let nc := length (hd [] m) in
  if decide (nr = 0 ∨ nc = 0) then Ok ([], [])
  else if forallb (forallb finite) m then
    match matchings (seq 0 nr) (seq 0 nc) (nr `min` nc) with
    | [] => Raise ValueError
    | a :: rest => let best := least m a rest in Ok (best.*1, best.*2)
    end
  else Raise ValueError.

End Exhaustive.

(** ** The real numbers as scalars

    The arithmetic of [forward] read over the reals: every real is finite,
    [x ** y] is the real power (for a positive base) and the sigmoid is
    [1 / (1 + exp (-x))]. *)

Global Instance R_eq_decision : EqDecision R := Req_dec_T.
Global Instance R_lt_decision : RelDecision Rlt := Rlt_dec.

Global Instance R_scalar : Scalar R := {|
  one := 1%R;
  alpha := 0.25%R;
  gamma := 2%R;
  eps := 1e-8%R;
  add := Rplus;
  sub := Rminus;
  mul := Rmult;
  neg := Ropp;
  pow := Rpower;
  log := ln;
  sigmoid := λ x, (/ (1 + exp (- x)))%R;
  nonzero := λ x, bool_decide (x ≠ 0%R);
  ltb := λ x y, bool_decide (x < y)%R;
  finite := λ _, true;
|}.

(** The sum of the absolute coordinate differences of two polygons. *)
Definition R_poly_l1 (p q : list R) : R :=
  foldr Rplus 0%R (zip_with (λ x y, Rabs (x - y)) p q).

(** The generalized-IoU cost [1 - GIoU] of two boxes [(cx, cy, w, h, θ)]
    read as axis-aligned rectangles, which is what the boxes of the sample
    batches below are ([θ = 0]).  A pair whose union or whose enclosing
    rectangle has no area costs 1, as the spec prescribes. *)
Definition R_giou_cost (a b : list R) : R :=
  match a, b with
  | [x1; y1; w1; h1; _], [x2; y2; w2; h2; _] =>
      let iw := Rmax 0 (Rmin (x1 + w1 / 2) (x2 + w2 / 2)
                        - Rmax (x1 - w1 / 2) (x2 - w2 / 2)) in
      let ih := Rmax 0 (Rmin (y1 + h1 / 2) (y2 + h2 / 2)
                        - Rmax (y1 - h1 / 2) (y2 - h2 / 2)) in
      let inter := iw * ih in
      let union := w1 * h1 + w2 * h2 - inter in
      let hull := (Rmax (x1 + w1 / 2) (x2 + w2 / 2)
                   - Rmin (x1 - w1 / 2) (x2 - w2 / 2))
                  * (Rmax (y1 + h1 / 2) (y2 + h2 / 2)
                     - Rmin (y1 - h1 / 2) (y2 - h2 / 2)) in
      if decide (union = 0 ∨ hull = 0) then 1
      else 1 - (inter / union - (hull - union) / hull)
  | _, _ => 1
  end%R.

Global Instance R_externals : Externals R := {|
  poly_l1 := R_poly_l1;
  obox_giou := R_giou_cost;
  linear_sum_assignment := exhaustive_lsa;
|}.

(** An unrotated box as the five parameters of a prediction, as the four
    parameters of a target, and as the polygon of its corners. *)
Definition box5 (cx cy w h : R) : list R := [cx; cy; w; h; 0]%R.
Definition box4 (cx cy w h : R) : list R := [cx; cy; w; h]%R.
Definition poly8 (cx cy w h : R) : list R :=
  [cx - w / 2; cy - h / 2; cx + w / 2; cy - h / 2;
   cx + w / 2; cy + h / 2; cx - w / 2; cy + h / 2]%R.

(** A batch of two images with two predictions each over two classes; the
    first image has one target, which is the box of its second prediction,
    and the second image has none. *)
Definition sample_outputs : Outputs R := {|
  pred_logits := [[[0; 1]; [1; 0]]; [[2; 0]; [0; 2]]]%R;
  pred_boxes := [[box5 0.25 0.25 0.5 0.5; box5 0.5 0.5 0.2 0.2];
                 [box5 0.75 0.25 0.5 0.5; box5 0.5 0.75 1 0.5]]%R;
  pred_polys := [[poly8 0.25 0.25 0.5 0.5; poly8 0.5 0.5 0.2 0.2];
                 [poly8 0.75 0.25 0.5 0.5; poly8 0.5 0.75 1 0.5]]%R;
|}.

Definition sample_targets : list (Target R) := [
  {| labels := [1%Z]; polys := [poly8 0.5 0.5 0.2 0.2]%R;
     boxes := [box4 0.5 0.5 0.2 0.2]%R; theta := [[0%R]] |};
  {| labels := []; polys := []; boxes := []; theta := [] |}
].

Definition sample_matcher : HungarianMatcher R :=
  {| cost_class := 1%R; cost_bbox := 1%R; cost_giou := 1%R |}.

(** A batch of one image with one prediction and one target. *)
Definition single_outputs : Outputs R := {|
  pred_logits := [[[0%R]]];
  pred_boxes := [[box5 0.5 0.5 0.2 0.2]]%R;
  pred_polys := [[poly8 0.5 0.5 0.2 0.2]]%R;
|}.

Definition single_targets : list (Target R) := [
  {| labels := [0%Z]; polys := [poly8 0.5 0.5 0.2 0.2]%R;
     boxes := [box4 0.5 0.5 0.2 0.2]%R; theta := [[0%R]] |}
].

(** The sample batch with its two images in the other order. *)
Definition swapped_outputs : Outputs R := {|
  pred_logits := reverse (pred_logits sample_outputs);
  pred_boxes := reverse (pred_boxes sample_outputs);
  pred_polys := reverse (pred_polys sample_outputs);
|}.

Definition swapped_targets : list (Target R) := reverse sample_targets.

(** The targets of the sample batch with the label [-1], and with the
    label [2], which is no class of the sample batch. *)
Definition negative_targets : list (Target R) := [
  {| labels := [(-1)%Z]; polys := [poly8 0.5 0.5 0.2 0.2]%R;
     boxes := [box4 0.5 0.5 0.2 0.2]%R; theta := [[0%R]] |};
  {| labels := []; polys := []; boxes := []; theta := [] |}
].

Definition bad_label_targets : list (Target R) := [
  {| labels := [2%Z]; polys := [poly8 0.5 0.5 0.2 0.2]%R;
     boxes := [box4 0.5 0.5 0.2 0.2]%R; theta := [[0%R]] |};
  {| labels := []; polys := []; boxes := []; theta := [] |}
].

(** The image of the single batch followed by an image with one prediction
    and no target. *)
Definition pair_outputs : Outputs R :=
  cat_outputs single_outputs {|
    pred_logits := [[[1%R]]];
    pred_boxes := [[box5 0.25 0.25 0.5 0.5]]%R;
    pred_polys := [[poly8 0.25 0.25 0.5 0.5]]%R;
  |}.

Definition pair_targets : list (Target R) :=
  single_targets ++ [{| labels := []; polys := []; boxes := []; theta := [] |}].

(** The arguments that give the sample matcher. *)
Definition sample_args : Args R :=
  {| set_cost_class := 1%R; set_cost_bbox := 1%R; set_cost_giou := 1%R |}.

(** The geometric costs of the sample batches with a solver that refuses
    every matrix, the way scipy refuses a matrix with an entry that is not
    a number. *)
Definition refusing_externals : Externals R := {|
  poly_l1 := R_poly_l1;
  obox_giou := R_giou_cost;
  linear_sum_assignment := λ _, Raise ValueError;
|}.

(** A batch of two images with three predictions each over two classes.
    The first image has two targets, which are the boxes of its second and
    of its third prediction; the second image has three targets, as many
    as predictions. *)
Definition dense_outputs : Outputs R := {|
  pred_logits := [[[0; 1]; [1; 0]; [2; -1]]; [[1; 1]; [0; 2]; [-1; 0]]]%R;
  pred_boxes :=
    [[box5 0.25 0.25 0.5 0.5; box5 0.5 0.5 0.2 0.2; box5 0.75 0.75 0.4 0.4];
     [box5 0.2 0.2 0.2 0.2; box5 0.5 0.5 0.4 0.4; box5 0.8 0.8 0.2 0.2]]%R;
  pred_polys :=
    [[poly8 0.25 0.25 0.5 0.5; poly8 0.5 0.5 0.2 0.2; poly8 0.75 0.75 0.4 0.4];
     [poly8 0.2 0.2 0.2 0.2; poly8 0.5 0.5 0.4 0.4; poly8 0.8 0.8 0.2 0.2]]%R;
|}.

Definition dense_targets : list (Target R) := [
  {| labels := [1%Z; 0%Z];
     polys := [poly8 0.5 0.5 0.2 0.2; poly8 0.75 0.75 0.4 0.4]%R;
     boxes := [box4 0.5 0.5 0.2 0.2; box4 0.75 0.75 0.4 0.4]%R;
     theta := [[0%R]; [0%R]] |};
  {| labels := [0%Z; 1%Z; 1%Z];
     polys := [poly8 0.8 0.8 0.2 0.2; poly8 0.2 0.2 0.2 0.2;
               poly8 0.5 0.5 0.4 0.4]%R;
     boxes := [box4 0.8 0.8 0.2 0.2; box4 0.2 0.2 0.2 0.2;
               box4 0.5 0.5 0.4 0.4]%R;
     theta := [[0%R]; [0%R]; [0%R]] |}
].

(** * Properties *)

(** ** The error monad *)

Section ResultLemmas.

Context {A B : Type}.
Implicit Types (f : A → result B) (l : list A) (k : list B).

Lemma mapM_nil f : mapM f [] = Ok [].
Proof. reflexivity. Qed.

Lemma mapM_cons f x l :
  mapM f (x :: l) = y ← f x; k ← mapM f l; mret (y :: k).
Proof. reflexivity. Qed.

Lemma mapM_Ok_Forall2 f l k :
  mapM f l = Ok k ↔ Forall2 (λ x y, f x = Ok y) l k.
Proof.
  revert k. induction l as [|x l IH]; intros k.
  - rewrite mapM_nil. split.
    + intros [= <-]. constructor.
    + intros Hk. by inversion Hk.
  - rewrite mapM_cons. split.
    + destruct (f x) as [y|e] eqn:Hx; [|done].
      destruct (mapM f l) as [k'|e] eqn:Hl; [|done].
      intros [= <-]. constructor; [done|]. by apply IH.
    + intros Hk. inversion Hk as [|? y ? k' Hx Hl]; subst.
      rewrite Hx. apply IH in Hl. by rewrite Hl.
Qed.

Lemma mapM_Ok_fmap f (g : A → B) l :
  (∀ x, x ∈ l → f x = Ok (g x)) → mapM f l = Ok (g <$> l).
Proof.
  intros Hf. apply mapM_Ok_Forall2. induction l as [|x l IH]; csimpl.
  - constructor.
  - constructor.
    + apply Hf. left.
    + apply IH. intros y Hy. apply Hf. by right.
Qed.

Lemma mapM_Ok_length f l k : mapM f l = Ok k → length k = length l.
Proof. intros Hk%mapM_Ok_Forall2. symmetry. by eapply Forall2_length. Qed.

Lemma mapM_Ok_lookup f l k i y :
  mapM f l = Ok k → k !! i = Some y → ∃ x, l !! i = Some x ∧ f x = Ok y.
Proof.
  intros Hk%mapM_Ok_Forall2 Hy.
  destruct (Forall2_lookup_r _ _ _ _ _ Hk Hy) as (x & ? & ?). eauto.
Qed.

Lemma mapM_is_Ok f l : Forall (λ x, is_Ok (f x)) l → is_Ok (mapM f l).
Proof.
  induction 1 as [|x l [y Hy] _ [k Hk]].
  - by exists [].
  - exists (y :: k). rewrite mapM_cons, Hy, Hk. done.
Qed.

End ResultLemmas.

Lemma bind_Ok {A B} (a : A) (f : A → result B) : Ok a ≫= f = f a.
Proof. reflexivity. Qed.

Lemma mapM_bind_Ok {A B D} (f : A → result B) (h : B → result D) l ms :
  mapM f l = Ok ms → mapM (λ x, y ← f x; h y) l = mapM h ms.
Proof.
  revert ms. induction l as [|x l IH]; intros ms.
  - rewrite mapM_nil. by intros [= <-].
  - rewrite !mapM_cons.
    destruct (f x) as [y|e] eqn:Hx; [|done].
    destruct (mapM f l) as [k|e] eqn:Hl; [|done].
    intros [= <-]. rewrite mapM_cons. cbn. by rewrite (IH k eq_refl).
Qed.

Lemma mapM_fmap_Ok {A' A B} (f : A → result B) (h : A' → A) (g : A' → B)
    (l : list A') :
  (∀ x, x ∈ l → f (h x) = Ok (g x)) → mapM f (h <$> l) = Ok (g <$> l).
Proof.
  intros Hf. apply mapM_Ok_Forall2, Forall2_fmap, Forall_Forall2_diag.
  apply Forall_forall. intros x Hx. by apply Hf.
Qed.

(** [mapM] over [enumerate], read by positions. *)
Lemma mapM_enumerate_Ok {A B} (f : nat * A → result B) (l : list A)
    (k : list B) :
  length k = length l →
  (∀ i x, l !! i = Some x → ∃ y, k !! i = Some y ∧ f (i, x) = Ok y) →
  mapM f (enumerate l) = Ok k.
Proof.
  intros Hlen Hf. apply mapM_Ok_Forall2. apply Forall2_same_length_lookup.
  unfold enumerate. split; [by rewrite length_imap|].
  intros i [j x] y Hix Hy.
  rewrite list_lookup_imap in Hix.
  destruct (l !! i) as [x'|] eqn:Hx; simplify_eq/=.
  destruct (Hf _ _ Hx) as (y' & Hy' & Hfx). by simplify_eq.
Qed.

(** ** The tensor operations on small tensors *)

Example torch_cat_example :
  torch_cat [[1; 2]; []; [3]] = Ok [1; 2; 3]
  ∧ torch_cat ([] : list (list nat)) = Raise RuntimeError.
Proof. split; reflexivity. Qed.

Example cat_last_example :
  cat_last [[1; 2]; [3; 4]] [[5]; [6]] = Ok [[1; 2; 5]; [3; 4; 6]]
  ∧ cat_last [[1; 2]; [3; 4]] [[5]] = Raise RuntimeError.
Proof. split; reflexivity. Qed.

Example getitem_example :
  getitem [10; 20; 30] 2 = Ok 30
  ∧ getitem [10; 20; 30] (-1) = Ok 30
  ∧ getitem [10; 20; 30] 3 = Raise IndexError
  ∧ getitem [10; 20; 30] (-4) = Raise IndexError.
Proof. repeat split; reflexivity. Qed.

Example index_cols_example :
  index_cols [[10; 20; 30]; [40; 50; 60]] [2; 0; 2]%Z
  = Ok [[30; 10; 30]; [60; 40; 60]].
Proof. reflexivity. Qed.

Example unsqueeze_repeat_example :
  unsqueeze1_repeat 2 [[1; 2]; [3; 4]; [5; 6]]
  = [[[1; 2]; [1; 2]]; [[3; 4]; [3; 4]]; [[5; 6]; [5; 6]]]
  ∧ unsqueeze0_repeat 3 [[7; 8]; [9; 10]]
    = [[[7; 8]; [9; 10]]; [[7; 8]; [9; 10]]; [[7; 8]; [9; 10]]].
Proof. split; reflexivity. Qed.

Example view3_example :
  view3 2 2 [[1; 2; 3]; [4; 5; 6]; [7; 8; 9]; [10; 11; 12]]
  = Ok [[[1; 2; 3]; [4; 5; 6]]; [[7; 8; 9]; [10; 11; 12]]]
  ∧ view3 0 2 ([] : list (list nat)) = Raise RuntimeError.
Proof. split; reflexivity. Qed.

Example split_example :
  split [2; 0; 1] [[[1; 2; 3]; [4; 5; 6]]; [[7; 8; 9]; [10; 11; 12]]]
  = Ok [[[[1; 2]; [4; 5]]; [[7; 8]; [10; 11]]];
        [[[]; []]; [[]; []]];
        [[[3]; [6]]; [[9]; [12]]]]
  ∧ split [2; 2] [[[1; 2; 3]; [4; 5; 6]]; [[7; 8; 9]; [10; 11; 12]]]
    = Raise RuntimeError.
Proof. split; reflexivity. Qed.

Example matchings_example :
  matchings [0; 1; 2] [0; 1] 2
  = [[(0, 0); (1, 1)]; [(0, 0); (2, 1)]; [(0, 1); (1, 0)];
     [(0, 1); (2, 0)]; [(1, 0); (2, 1)]; [(1, 1); (2, 0)]].
Proof. reflexivity. Qed.

(** ** Matrices given by their entries *)

Section TabLemmas.

Context {A : Type}.
Implicit Types (e : nat → nat → A).

Lemma tab_length R G e : length (tab R G e) = R.
Proof. unfold tab. by rewrite length_fmap, length_seq. Qed.

Lemma tab_lookup_row R G e r :
  r < R → tab R G e !! r = Some (e r <$> seq 0 G).
Proof.
  intros Hr. unfold tab. by rewrite list_lookup_fmap, lookup_seq_lt.
Qed.

Lemma tab_lookup R G e r g :
  r < R → g < G → tab R G e !! r ≫= (.!! g) = Some (e r g).
Proof.
  intros Hr Hg. rewrite tab_lookup_row by done. cbn.
  by rewrite list_lookup_fmap, lookup_seq_lt.
Qed.

Lemma tab_row_length R G e row : row ∈ tab R G e → length row = G.
Proof.
  unfold tab. intros (r & -> & _)%list_elem_of_fmap.
  by rewrite length_fmap, length_seq.
Qed.

Lemma tab_ext R G e e' :
  (∀ r g, r < R → g < G → e r g = e' r g) → tab R G e = tab R G e'.
Proof.
  intros He. unfold tab. apply list_fmap_ext. intros i r Hr.
  apply lookup_seq in Hr as [-> Hr]. apply list_fmap_ext. intros j g Hg.
  apply lookup_seq in Hg as [-> Hg]. by apply He.
Qed.

Lemma seq_take_drop o q R : o + q ≤ R → take q (drop o (seq 0 R)) = seq o q.
Proof.
  intros Hle. rewrite drop_seq, take_seq. f_equal; lia.
Qed.

Lemma seq_from o q : seq o q = Nat.add o <$> seq 0 q.
Proof. rewrite fmap_add_seq. f_equal. lia. Qed.

Lemma tab_take_drop_rows R G e o q :
  o + q ≤ R → take q (drop o (tab R G e)) = tab q G (λ r, e (o + r)).
Proof.
  intros Hle. unfold tab.
  rewrite <-fmap_drop, <-fmap_take, seq_take_drop by done.
  by rewrite (seq_from o q), <-list_fmap_compose.
Qed.

Lemma tab_take_drop_cols R G e o n :
  o + n ≤ G →
  (λ row, take n (drop o row)) <$> tab R G e = tab R n (λ r g, e r (o + g)).
Proof.
  intros Hle. unfold tab. rewrite <-list_fmap_compose.
  apply list_fmap_ext. intros _ r _. cbn.
  rewrite <-fmap_drop, <-fmap_take, seq_take_drop by done.
  by rewrite (seq_from o n), <-list_fmap_compose.
Qed.

End TabLemmas.

(** ** The tensor operations on valid shapes *)

Section TensorLemmas.

Lemma fmap_seq_lookup_total {A} `{!Inhabited A} (l : list A) :
  (λ i, l !!! i) <$> seq 0 (length l) = l.
Proof.
  apply list_eq. intros i. rewrite list_lookup_fmap.
  destruct (decide (i < length l)) as [Hi|Hi].
  - rewrite lookup_seq_lt by done. cbn.
    by rewrite <-list_lookup_lookup_total_lt.
  - rewrite lookup_seq_ge, lookup_ge_None_2 by lia. done.
Qed.

Lemma replicate_fmap_seq {A} n (x : A) : replicate n x = (λ _, x) <$> seq 0 n.
Proof.
  apply list_eq. intros i. rewrite list_lookup_fmap.
  destruct (decide (i < n)) as [Hi|Hi].
  - by rewrite lookup_replicate_2, lookup_seq_lt.
  - rewrite lookup_seq_ge by lia. apply lookup_replicate_None. lia.
Qed.

Lemma unsqueeze1_repeat_tab {A} `{!Inhabited A} n (xs : list A) :
  unsqueeze1_repeat n xs = tab (length xs) n (λ r _, xs !!! r).
Proof.
  unfold unsqueeze1_repeat, tab.
  rewrite <-(fmap_seq_lookup_total xs) at 1. rewrite <-list_fmap_compose.
  apply list_fmap_ext. intros _ r _. cbn. apply replicate_fmap_seq.
Qed.

Lemma unsqueeze0_repeat_tab {A} `{!Inhabited A} n (ys : list A) :
  unsqueeze0_repeat n ys = tab n (length ys) (λ _ g, ys !!! g).
Proof.
  unfold unsqueeze0_repeat, tab. rewrite replicate_fmap_seq.
  apply list_fmap_ext. intros _ r _. cbn.
  symmetry. apply fmap_seq_lookup_total.
Qed.

Lemma zip_with_fmap_same {A B D E} (f : B → D → E) (g1 : A → B)
    (g2 : A → D) (l : list A) :
  zip_with f (g1 <$> l) (g2 <$> l) = (λ x, f (g1 x) (g2 x)) <$> l.
Proof. by rewrite zip_with_fmap_l, zip_with_fmap_r, zip_with_diag. Qed.

Lemma zip_with_tab {A B D} (f : A → B → D) R G e1 e2 :
  zip_with (zip_with f) (tab R G e1) (tab R G e2)
  = tab R G (λ r g, f (e1 r g) (e2 r g)).
Proof.
  unfold tab. rewrite zip_with_fmap_same.
  apply list_fmap_ext. intros _ r _. cbn. apply zip_with_fmap_same.
Qed.

Lemma zip_same2_Ok {A B D} (f : A → B → D) a b :
  Forall2 (λ x y, length x = length y) a b →
  zip_same2 f a b = Ok (zip_with (zip_with f) a b).
Proof.
  intros Hab. unfold zip_same2.
  rewrite decide_True by by eapply Forall2_length.
  apply mapM_Ok_Forall2.
  induction Hab as [|x y a b Hxy Hab IH]; cbn; constructor; [|done].
  cbn. unfold zip_same. by rewrite decide_True.
Qed.

Lemma zip_same2_tab {A B D} (f : A → B → D) R G e1 e2 :
  zip_same2 f (tab R G e1) (tab R G e2)
  = Ok (tab R G (λ r g, f (e1 r g) (e2 r g))).
Proof.
  rewrite zip_same2_Ok, zip_with_tab; [done|].
  apply Forall2_same_length_lookup. split; [by rewrite !tab_length|].
  intros i x y Hx%list_elem_of_lookup_2 Hy%list_elem_of_lookup_2.
  apply tab_row_length in Hx, Hy. congruence.
Qed.

Lemma fmap_fmap_rows {A B D} (g : B → D) (f : A → B) (m : list (list A)) :
  (λ row : list B, g <$> row) <$> ((λ row : list A, f <$> row) <$> m)
  = (λ row : list A, g ∘ f <$> row) <$> m.
Proof.
  rewrite <-list_fmap_compose. apply list_fmap_ext. intros _ row _. cbn.
  by rewrite <-list_fmap_compose.
Qed.

Lemma getitem_valid {A} `{!Inhabited A} (row : list A) (c : Z) :
  (0 ≤ c < Z.of_nat (length row))%Z →
  getitem row c = Ok (row !!! Z.to_nat c).
Proof.
  intros Hc. unfold getitem.
  destruct (decide (c < 0)%Z); [lia|]. cbn.
  rewrite decide_True by done.
  rewrite list_lookup_lookup_total_lt by lia. done.
Qed.

Lemma index_cols_valid {A B} `{!Inhabited A, !Inhabited B}
    (g : A → B) (m : list (list A)) (ids : list Z) K :
  Forall (λ row, length row = K) m →
  Forall (λ c, (0 ≤ c < Z.of_nat K)%Z) ids →
  index_cols ((λ row : list A, g <$> row) <$> m) ids
  = Ok (tab (length m) (length ids)
          (λ r k, g ((m !!! r) !!! Z.to_nat (ids !!! k)))).
Proof.
  intros Hm Hids. unfold index_cols, tab.
  rewrite <-(fmap_seq_lookup_total m) at 1.
  rewrite <-list_fmap_compose.
  apply mapM_fmap_Ok. intros r Hr%elem_of_seq. cbn.
  rewrite <-(fmap_seq_lookup_total ids) at 1.
  apply mapM_fmap_Ok. intros k Hk%elem_of_seq.
  assert (length (m !!! r) = K) as Hlen.
  { pose proof (list_lookup_lookup_total_lt m r ltac:(lia)) as Hl.
    apply (Forall_lookup_1 _ _ _ _ Hm Hl). }
  assert (0 ≤ ids !!! k < Z.of_nat K)%Z as Hc.
  { pose proof (list_lookup_lookup_total_lt ids k ltac:(lia)) as Hl.
    apply (Forall_lookup_1 _ _ _ _ Hids Hl). }
  rewrite getitem_valid by (rewrite length_fmap; lia).
  rewrite (list_lookup_total_fmap g (m !!! r)) by lia. done.
Qed.

Lemma view3_tab {A} B Q G (e : nat → nat → A) :
  0 < B → 0 < Q →
  view3 B Q (tab (B * Q) G e)
  = Ok ((λ b, tab Q G (λ q, e (b * Q + q))) <$> seq 0 B).
Proof.
  intros HB HQ. unfold view3.
  rewrite decide_False by nia. rewrite decide_True by apply tab_length.
  f_equal. apply list_fmap_ext. intros j b [-> Hb]%lookup_seq. cbn.
  apply tab_take_drop_rows. nia.
Qed.

Lemma last_dim_tabs {A} B Q G (e : nat → nat → nat → A) :
  0 < B → 0 < Q → last_dim ((λ b, tab Q G (e b)) <$> seq 0 B) = G.
Proof.
  intros HB HQ. destruct B as [|B]; [lia|]. destruct Q as [|Q]; [lia|].
  cbn. by rewrite length_fmap, length_seq.
Qed.

Lemma split_last_length {A} sizes off (C3 : list (list (list A))) :
  length (split_last sizes off C3) = length sizes.
Proof. revert off. induction sizes; intros off; cbn; by f_equal. Qed.

Lemma split_last_lookup {A} sizes off (C3 : list (list (list A))) k n :
  sizes !! k = Some n →
  split_last sizes off C3 !! k
  = Some ((λ m : list (list A),
             (λ row, take n (drop (off + sum_list (take k sizes)) row)) <$> m)
          <$> C3).
Proof.
  revert off k. induction sizes as [|n' sizes IH]; intros off k Hk; [done|].
  destruct k as [|k]; cbn in *.
  - simplify_eq. by rewrite Nat.add_0_r.
  - rewrite (IH _ _ Hk). by rewrite Nat.add_assoc.
Qed.

End TensorLemmas.

(** ** Flattening and concatenation *)

Section JoinLemmas.

Context {A : Type} `{!Inhabited A}.
Implicit Types (ls : list (list A)).

Lemma join_lookup_total ls i t :
  i < length ls → t < length (ls !!! i) →
  mjoin ls !!! (sum_list (length <$> take i ls) + t) = (ls !!! i) !!! t.
Proof.
  intros Hi Ht. apply list_lookup_total_correct, join_lookup_Some.
  exists i, (ls !!! i), t.
  split_and!; [by apply list_lookup_lookup_total_lt..|done].
Qed.

Lemma sum_list_take_uniform ls q i :
  Forall (λ l, length l = q) ls → i ≤ length ls →
  sum_list (length <$> take i ls) = i * q.
Proof.
  intros Hls Hi. rewrite (sum_list_fmap_same q).
  - by rewrite length_take_le.
  - by apply Forall_take.
Qed.

Lemma join_length_uniform ls q :
  Forall (λ l, length l = q) ls → length (mjoin ls) = length ls * q.
Proof. intros Hls. by rewrite length_join, (sum_list_fmap_same q). Qed.

Lemma join_lookup_total_uniform ls q i j :
  Forall (λ l, length l = q) ls → i < length ls → j < q →
  mjoin ls !!! (i * q + j) = (ls !!! i) !!! j.
Proof.
  intros Hls Hi Hj.
  rewrite <-(sum_list_take_uniform ls q i) by (done || lia).
  apply join_lookup_total; [done|].
  pose proof (list_lookup_lookup_total_lt ls i Hi) as Hl.
  by rewrite (Forall_lookup_1 _ _ _ _ Hls Hl).
Qed.

Lemma torch_cat_Ok ls : ls ≠ [] → torch_cat ls = Ok (mjoin ls).
Proof. by destruct ls. Qed.

End JoinLemmas.

(** ** Shapes in a valid batch *)

Section ShapeLemmas.

Context {F : Type}.
Implicit Types (t : list (list (list F))) (targets : list (Target F)).

Lemma shape3_rows t b q w : shape3 t b q w → Forall (λ m, length m = q) t.
Proof. intros [_ Ht]. eapply Forall_impl; [done|]. by intros m [? _]. Qed.

Lemma shape3_join_length t b q w : shape3 t b q w → length (mjoin t) = b * q.
Proof.
  intros Ht. rewrite (join_length_uniform t q) by by eapply shape3_rows.
  by destruct Ht as [-> _].
Qed.

Lemma shape3_join_width t b q w :
  shape3 t b q w → Forall (λ row, length row = w) (mjoin t).
Proof.
  intros [_ Ht]. apply Forall_join. eapply Forall_impl; [done|].
  by intros m [_ ?].
Qed.

Lemma shape3_lookup t b q w i :
  shape3 t b q w → i < b → shape2 (t !!! i) q w.
Proof.
  intros [Hb Ht] Hi.
  assert (t !! i = Some (t !!! i)) as Hl
    by (apply list_lookup_lookup_total_lt; lia).
  apply (Forall_lookup_1 _ _ _ _ Ht Hl).
Qed.

Lemma shape3_hd_length t b q w :
  0 < b → shape3 t b q w → length (hd [] t) = q.
Proof.
  intros Hb [Hlen Ht]. destruct t as [|m t]; cbn in *; [lia|].
  by apply Forall_cons_1 in Ht as [[? _] _].
Qed.

Lemma counts_field {B} (f : Target F → list B) targets :
  Forall (λ v, length (f v) = length (labels v)) targets →
  length <$> (f <$> targets) = counts targets.
Proof.
  intros Hf. unfold counts. rewrite <-list_fmap_compose.
  apply list_fmap_ext. intros i v Hv. cbn.
  apply (Forall_lookup_1 _ _ _ _ Hf Hv).
Qed.

Lemma counts_lookup targets i :
  counts targets !! i = Some (num_targets targets i) ↔ i < length targets.
Proof.
  unfold counts, num_targets. rewrite list_lookup_fmap. split.
  - intros Hi. apply lookup_lt_is_Some.
    destruct (targets !! i); [eauto|done].
  - intros [v ->]%lookup_lt_is_Some. done.
Qed.

Lemma offset_bound targets i :
  i < length targets →
  offset targets i + num_targets targets i ≤ sum_list (counts targets).
Proof.
  intros Hi%counts_lookup. unfold offset.
  rewrite <-(take_drop_middle (counts targets) i _ Hi) at 2.
  rewrite sum_list_with_app. cbn. lia.
Qed.

Lemma valid_target_lengths K targets :
  Forall (valid_target K) targets →
  Forall (λ v, length (polys v) = length (labels v)) targets
  ∧ Forall (λ v, length (boxes v) = length (labels v)) targets
  ∧ Forall (λ v, length (theta v) = length (labels v)) targets.
Proof.
  intros Hv. split_and!; (eapply Forall_impl; [done|]);
    intros v (_ & [? _] & [? _] & [? _]); done.
Qed.

End ShapeLemmas.

(** ** The cost matrices of a valid batch *)

Section Costs.

Context {F : Type} `{Scalar F} `{!Externals F}.
Implicit Types (self : HungarianMatcher F) (outputs : Outputs F)
  (targets : list (Target F)).

Lemma valid_batch_prefix B Q K outputs targets :
  valid_batch B Q K outputs targets → prefix_batch B Q K outputs targets.
Proof.
  intros (HB & HQ & Hlog & Hbox & Hpol & Hlen & Hv).
  split_and!; try done; lia.
Qed.

Lemma targets_join_lengths K targets :
  Forall (valid_target K) targets →
  length (mjoin (labels <$> targets)) = sum_list (counts targets)
  ∧ length (mjoin (polys <$> targets)) = sum_list (counts targets)
  ∧ length (mjoin (boxes <$> targets)) = sum_list (counts targets)
  ∧ length (mjoin (theta <$> targets)) = sum_list (counts targets).
Proof.
  intros Hv.
  destruct (valid_target_lengths _ _ Hv) as (Hp & Hb & Ht).
  rewrite !length_join.
  rewrite (counts_field polys), (counts_field boxes), (counts_field theta)
    by done.
  rewrite (counts_field labels); [done|]. by apply Forall_true.
Qed.

Lemma valid_batch_join_lengths B Q K outputs targets :
  valid_batch B Q K outputs targets →
  length (mjoin (labels <$> targets)) = sum_list (counts targets)
  ∧ length (mjoin (polys <$> targets)) = sum_list (counts targets)
  ∧ length (mjoin (boxes <$> targets)) = sum_list (counts targets)
  ∧ length (mjoin (theta <$> targets)) = sum_list (counts targets).
Proof.
  intros (_ & _ & _ & _ & _ & _ & Hv). by eapply targets_join_lengths.
Qed.

Lemma forward_costs_prefix B Q K self outputs targets :
  prefix_batch B Q K outputs targets →
  let G := sum_list (counts targets) in
  forward_costs self outputs targets
  = Ok {| bs := B; num_queries := Q;
          t_cost_class := tab (B * Q) G (flat_class_cost outputs targets);
          t_cost_bbox := tab (B * Q) G (flat_bbox_cost outputs targets);
          t_cost_giou := tab (B * Q) G (flat_giou_cost outputs targets);
          C := tab (B * Q) G (λ r g,
                 final_cost_entry self (flat_bbox_cost outputs targets r g)
                   (flat_class_cost outputs targets r g)
                   (flat_giou_cost outputs targets r g)) |}.
Proof.
  intros (HQ & Hlog & Hbox & Hpol & [Hpos Hlen] & Hv) G.
  destruct (targets_join_lengths _ _ Hv) as (Hl & Hp & Hb & Ht).
  assert (0 < B) as HB by lia.
  assert (targets ≠ []) as Hne by (intros ->; cbn in Hpos; lia).
  assert (length (pred_logits outputs) = B) as HlenB by apply Hlog.
  assert (length (hd [] (pred_logits outputs)) = Q) as HlenQ
    by (by apply (shape3_hd_length _ B Q K)).
  pose proof (shape3_join_length _ _ _ _ Hlog) as Hjlog.
  pose proof (shape3_join_length _ _ _ _ Hbox) as Hjbox.
  pose proof (shape3_join_length _ _ _ _ Hpol) as Hjpol.
  assert (Forall (λ c, (0 ≤ c < Z.of_nat K)%Z) (mjoin (labels <$> targets)))
    as Hids.
  { apply Forall_join, Forall_fmap. eapply Forall_impl; [done|].
    by intros v [? _]. }
  unfold forward_costs.
  rewrite !torch_cat_Ok by (by destruct targets).
  rewrite !bind_Ok. unfold cat_last.
  rewrite decide_True, bind_Ok by congruence.
  rewrite !fmap_fmap_rows.
  pose proof (shape3_join_width _ _ _ _ Hlog) as Hwidth.
  rewrite !(index_cols_valid _ _ _ K) by done.
  rewrite !bind_Ok, Hjlog, Hl, zip_same2_tab, bind_Ok.
  unfold matched_l1_loss, cal_giou.
  rewrite !unsqueeze1_repeat_tab, !unsqueeze0_repeat_tab.
  rewrite HlenB, HlenQ, Hjpol, Hjbox, Hp, (Nat.mul_comm Q B).
  rewrite length_zip_with, Hb, Ht, Nat.min_id.
  repeat first [rewrite zip_same2_tab | rewrite bind_Ok]. reflexivity.
Qed.

Lemma forward_costs_valid B Q K self outputs targets :
  valid_batch B Q K outputs targets →
  let G := sum_list (counts targets) in
  forward_costs self outputs targets
  = Ok {| bs := B; num_queries := Q;
          t_cost_class := tab (B * Q) G (flat_class_cost outputs targets);
          t_cost_bbox := tab (B * Q) G (flat_bbox_cost outputs targets);
          t_cost_giou := tab (B * Q) G (flat_giou_cost outputs targets);
          C := tab (B * Q) G (λ r g,
                 final_cost_entry self (flat_bbox_cost outputs targets r g)
                   (flat_class_cost outputs targets r g)
                   (flat_giou_cost outputs targets r g)) |}.
Proof.
  intros Hvalid. by apply (forward_costs_prefix B Q K), valid_batch_prefix.
Qed.

(** The targets of image [i] inside the concatenation of all targets. *)
Lemma join_field_lookup {D} `{!Inhabited D} (f : Target F → list D)
    targets i tgt t :
  Forall (λ v, length (f v) = length (labels v)) targets →
  targets !! i = Some tgt → t < length (labels tgt) →
  mjoin (f <$> targets) !!! (offset targets i + t) = f tgt !!! t.
Proof.
  intros Hf Htgt Ht. unfold offset.
  rewrite <-(counts_field f) by done. rewrite <-fmap_take.
  assert ((f <$> targets) !! i = Some (f tgt)) as Hi
    by by rewrite list_lookup_fmap, Htgt.
  rewrite join_lookup_total.
  - by rewrite (list_lookup_total_correct _ _ _ Hi).
  - by eapply lookup_lt_Some.
  - rewrite (list_lookup_total_correct _ _ _ Hi).
    rewrite (Forall_lookup_1 _ _ _ _ Hf Htgt). done.
Qed.

Section BlockPrefix.

Context (B Q K : nat) (outputs : Outputs F) (targets : list (Target F)).
Context (Hprefix : prefix_batch B Q K outputs targets).
Context (i q t : nat) (tgt : Target F).
Context (Htgt : targets !! i = Some tgt) (Hq : q < Q)
  (Ht : t < length (labels tgt)).

Lemma prefix_image_in_range : i < B.
Proof.
  destruct Hprefix as (_ & _ & _ & _ & [_ Hlen] & _).
  apply lookup_lt_Some in Htgt. lia.
Qed.

Lemma flat_class_cost_prefix :
  flat_class_cost outputs targets (i * Q + q) (offset targets i + t)
  = class_cost_at (pred_logits outputs !!! i) tgt q t.
Proof.
  pose proof prefix_image_in_range as Hi.
  destruct Hprefix as (_ & Hlog & _ & _ & _ & Hv).
  unfold flat_class_cost, class_cost_at.
  rewrite (join_lookup_total_uniform _ Q)
    by (by eapply shape3_rows || (destruct Hlog; lia) || done).
  rewrite (join_field_lookup labels _ _ tgt)
    by (done || by apply Forall_true).
  done.
Qed.

Lemma flat_bbox_cost_prefix :
  flat_bbox_cost outputs targets (i * Q + q) (offset targets i + t)
  = bbox_cost_at (pred_polys outputs !!! i) tgt q t.
Proof.
  pose proof prefix_image_in_range as Hi.
  destruct Hprefix as (_ & _ & _ & Hpol & _ & Hv).
  destruct (valid_target_lengths _ _ Hv) as (Hp & _ & _).
  unfold flat_bbox_cost, bbox_cost_at.
  rewrite (join_lookup_total_uniform _ Q)
    by (by eapply shape3_rows || (destruct Hpol; lia) || done).
  by rewrite (join_field_lookup polys _ _ tgt).
Qed.

Lemma flat_giou_cost_prefix :
  flat_giou_cost outputs targets (i * Q + q) (offset targets i + t)
  = giou_cost_at (pred_boxes outputs !!! i) tgt q t.
Proof.
  pose proof prefix_image_in_range as Hi.
  destruct Hprefix as (_ & _ & Hbox & _ & _ & Hv).
  destruct (targets_join_lengths _ _ Hv) as (_ & _ & Hjb & Hjt).
  destruct (valid_target_lengths _ _ Hv) as (_ & Hb & Hth).
  assert (offset targets i + t < sum_list (counts targets)) as Hg.
  { pose proof (offset_bound targets i ltac:(by eapply lookup_lt_Some)) as Hle.
    unfold num_targets in Hle. rewrite Htgt in Hle. cbn in Hle. lia. }
  unfold flat_giou_cost, giou_cost_at.
  rewrite (join_lookup_total_uniform _ Q)
    by (by eapply shape3_rows || (destruct Hbox; lia) || done).
  rewrite (lookup_total_zip_with app (mjoin (boxes <$> targets))
             (mjoin (theta <$> targets))) by lia.
  by rewrite (join_field_lookup boxes _ _ tgt),
    (join_field_lookup theta _ _ tgt).
Qed.

End BlockPrefix.

Section Block.

Context (B Q K : nat) (outputs : Outputs F) (targets : list (Target F)).
Context (Hvalid : valid_batch B Q K outputs targets).
Context (i q t : nat) (tgt : Target F).
Context (Htgt : targets !! i = Some tgt) (Hq : q < Q)
  (Ht : t < length (labels tgt)).

Lemma block_image_in_range : i < B.
Proof.
  destruct Hvalid as (_ & _ & _ & _ & _ & <- & _). by eapply lookup_lt_Some.
Qed.

Lemma flat_class_cost_block :
  flat_class_cost outputs targets (i * Q + q) (offset targets i + t)
  = class_cost_at (pred_logits outputs !!! i) tgt q t.
Proof.
  by apply (flat_class_cost_prefix B Q K _ _
              (valid_batch_prefix _ _ _ _ _ Hvalid)).
Qed.

Lemma flat_bbox_cost_block :
  flat_bbox_cost outputs targets (i * Q + q) (offset targets i + t)
  = bbox_cost_at (pred_polys outputs !!! i) tgt q t.
Proof.
  by apply (flat_bbox_cost_prefix B Q K _ _
              (valid_batch_prefix _ _ _ _ _ Hvalid)).
Qed.

Lemma flat_giou_cost_block :
  flat_giou_cost outputs targets (i * Q + q) (offset targets i + t)
  = giou_cost_at (pred_boxes outputs !!! i) tgt q t.
Proof.
  by apply (flat_giou_cost_prefix B Q K _ _
              (valid_batch_prefix _ _ _ _ _ Hvalid)).
Qed.

End Block.

(** The matrix handed to the solver for entry [i] of the targets is the
    cost matrix of image [i] computed on its own, also when the targets
    are fewer than the images. *)
Lemma solver_inputs_prefix B Q K self outputs targets :
  prefix_batch B Q K outputs targets →
  solver_inputs self outputs targets = Ok (image_costs self outputs targets).
Proof.
  intros Hprefix. unfold solver_inputs.
  rewrite (forward_costs_prefix B Q K) by done. rewrite bind_Ok.
  pose proof Hprefix as (HQ & Hlog & Hbox & Hpol & [Hpos Hlen] & Hv).
  destruct (valid_target_lengths _ _ Hv) as (_ & Hb & _).
  assert ((λ v : Target F, length (boxes v)) <$> targets = counts targets)
    as Hsizes.
  { apply list_fmap_ext. intros j v Hj. apply (Forall_lookup_1 _ _ _ _ Hb Hj). }
  unfold forward_split. cbn [bs num_queries C].
  rewrite view3_tab, bind_Ok by (done || lia). rewrite Hsizes. unfold split.
  rewrite last_dim_tabs, decide_True by (done || lia).
  rewrite bind_Ok. apply mapM_enumerate_Ok.
  { unfold image_costs, counts.
    by rewrite length_imap, split_last_length, length_fmap. }
  intros i c Hc.
  assert (i < length targets) as Hi.
  { apply lookup_lt_Some in Hc. unfold counts in Hc.
    by rewrite split_last_length, length_fmap in Hc. }
  destruct (lookup_lt_is_Some_2 _ _ Hi) as [tgt Htgt].
  assert (counts targets !! i = Some (length (labels tgt))) as Hn
    by by (unfold counts; rewrite list_lookup_fmap, Htgt).
  rewrite (split_last_lookup _ _ _ _ _ Hn) in Hc. simplify_eq.
  exists (image_cost self (pred_logits outputs !!! i)
            (pred_boxes outputs !!! i) (pred_polys outputs !!! i) tgt).
  split.
  { unfold image_costs. by rewrite list_lookup_imap, Htgt. }
  cbn [fst snd]. rewrite Nat.add_0_l. fold (offset targets i).
  unfold getitem0. rewrite !list_lookup_fmap, lookup_seq_lt by lia. cbn.
  f_equal. rewrite tab_take_drop_cols.
  2:{ pose proof (offset_bound targets i Hi) as Hle.
      unfold num_targets in Hle. rewrite Htgt in Hle. apply Hle. }
  unfold image_cost.
  destruct (shape3_lookup _ _ _ _ i Hlog ltac:(lia)) as [-> _].
  apply tab_ext. intros q t Hq Ht.
  rewrite (flat_class_cost_prefix B Q K _ _ Hprefix i q t tgt Htgt Hq Ht).
  rewrite (flat_bbox_cost_prefix B Q K _ _ Hprefix i q t tgt Htgt Hq Ht).
  by rewrite (flat_giou_cost_prefix B Q K _ _ Hprefix i q t tgt Htgt Hq Ht).
Qed.

(** The matrix handed to the solver for image [i] is the cost matrix of
    image [i] computed on its own. *)
Lemma solver_inputs_valid B Q K self outputs targets :
  valid_batch B Q K outputs targets →
  solver_inputs self outputs targets = Ok (image_costs self outputs targets).
Proof.
  intros Hvalid. by apply (solver_inputs_prefix B Q K), valid_batch_prefix.
Qed.

(** Handing the matrices to the solver one by one is [forward]. *)
Lemma forward_solves_inputs self outputs targets ms :
  solver_inputs self outputs targets = Ok ms →
  forward self outputs targets
  = (indices ← mapM linear_sum_assignment ms;
     mret ((λ ij, [as_tensor_int64 ij.1; as_tensor_int64 ij.2]) <$> indices)).
Proof.
  unfold solver_inputs, forward.
  destruct (forward_costs self outputs targets) as [costs|e]; [|done].
  rewrite !bind_Ok.
  destruct (forward_split costs targets) as [cs|e]; [|done].
  rewrite !bind_Ok. intros Hms.
  by rewrite (mapM_bind_Ok _ linear_sum_assignment _ _ Hms).
Qed.

End Costs.

(** ** The reference solver meets the contract *)

Section ExhaustiveLemmas.

Context {F : Type} `{Scalar F}.

Lemma picks_Permutation {A} (l : list A) x rest :
  (x, rest) ∈ picks l → l ≡ₚ x :: rest.
Proof.
  revert x rest. induction l as [|y l IH]; intros x rest; cbn.
  - by intros ?%elem_of_nil.
  - intros [Heq|Hin]%elem_of_cons.
    + by simplify_eq.
    + apply list_elem_of_fmap in Hin as ([x' rest'] & ? & Hin). simplify_eq/=.
      rewrite (IH _ _ Hin). apply Permutation_swap.
Qed.

Lemma matchings_spec rows cols k a :
  a ∈ matchings rows cols k →
  StronglySorted lt rows → NoDup cols →
  length a = k ∧ StronglySorted lt a.*1 ∧ (∀ r, r ∈ a.*1 → r ∈ rows)
  ∧ NoDup a.*2 ∧ (∀ j, j ∈ a.*2 → j ∈ cols).
Proof.
  revert cols k a.
  induction rows as [|r rows IH]; intros cols k a Ha Hrows Hcols.
  - destruct k; cbn in Ha; [|by apply elem_of_nil in Ha].
    apply list_elem_of_singleton in Ha as ->. cbn.
    split_and!; [done|constructor|by intros ? ?%elem_of_nil
                |constructor|by intros ? ?%elem_of_nil].
  - destruct k as [|k]; cbn in Ha.
    { apply list_elem_of_singleton in Ha as ->. cbn.
      split_and!; [done|constructor|by intros ? ?%elem_of_nil
                  |constructor|by intros ? ?%elem_of_nil]. }
    apply StronglySorted_inv in Hrows as [Hrows Hr].
    apply elem_of_app in Ha as [Ha|Ha].
    + apply list_elem_of_bind in Ha as ([j cols'] & Ha & Hp).
      apply list_elem_of_fmap in Ha as (a' & -> & Ha'). cbn in *.
      pose proof (picks_Permutation _ _ _ Hp) as Hperm.
      rewrite Hperm in Hcols. apply NoDup_cons in Hcols as [Hj Hcols'].
      destruct (IH _ _ _ Ha' Hrows Hcols') as (Hlen & Hs & Hin & Hnd & Hjn).
      split_and!.
      * by rewrite Hlen.
      * constructor; [done|]. apply Forall_forall. intros r' Hr'.
        rewrite Forall_forall in Hr. apply Hr, Hin, Hr'.
      * intros r' [->|Hr']%elem_of_cons; [left|right; by apply Hin].
      * apply NoDup_cons. split; [|done]. intros Hj'. by apply Hj, Hjn.
      * intros j' Hj'. rewrite Hperm.
        apply elem_of_cons in Hj' as [->|Hj']; [left|right; by apply Hjn].
    + destruct (IH _ _ _ Ha Hrows Hcols) as (Hlen & Hs & Hin & Hnd & Hjn).
      split_and!; try done. intros r' Hr'. right. by apply Hin.
Qed.

Lemma matchings_nonempty rows cols k :
  k ≤ length rows → k ≤ length cols → matchings rows cols k ≠ [].
Proof.
  revert cols k. induction rows as [|r rows IH]; intros cols k Hr Hc.
  - destruct k; cbn in *; [done|lia].
  - destruct k as [|k]; [done|]. cbn in Hr.
    destruct cols as [|c cols]; cbn in Hc; [lia|].
    cbn. specialize (IH cols k ltac:(lia) ltac:(lia)).
    destruct (matchings rows cols k); [done|]. done.
Qed.

Lemma least_elem_of (m : list (list F)) best rest :
  least m best rest ∈ best :: rest.
Proof.
  revert best. induction rest as [|a rest IH]; intros best; cbn.
  - left.
  - specialize (IH (if cheaper m a best then a else best)).
    apply elem_of_cons in IH as [->|IH].
    + destruct (cheaper m a best); [right; left|left].
    + right. by right.
Qed.

Lemma StronglySorted_seq j n : StronglySorted lt (seq j n).
Proof.
  revert j. induction n as [|n IH]; intros j; cbn; constructor; [done|].
  apply Forall_forall. intros i Hi%elem_of_seq. lia.
Qed.

Lemma forallb_Forall_true {A} (f : A → bool) l :
  Forall (λ x, f x = true) l → forallb f l = true.
Proof. induction 1 as [|x l Hx _ IH]; cbn; [done|]. by rewrite Hx, IH. Qed.

Lemma exhaustive_lsa_ok (m : list (list F)) rc :
  exhaustive_lsa m = Ok rc →
  assignment_ok (length m) (length (hd [] m)) rc.
Proof.
  unfold exhaustive_lsa, assignment_ok. case_decide as Hdim.
  { intros [= <-]. cbn.
    assert (length m `min` length (hd [] m) = 0) as -> by lia.
    split_and!; by constructor. }
  destruct (forallb (forallb finite) m); [|done].
  destruct (matchings _ _ _) as [|a rest] eqn:Hms; [done|].
  intros [= <-]. cbn.
  pose proof (least_elem_of m a rest) as Hin. rewrite <-Hms in Hin.
  destruct (matchings_spec _ _ _ _ Hin (StronglySorted_seq _ _) (NoDup_seq _ _))
    as (Hlen & Hs & Hr & Hnd & Hj).
  split_and!; try done.
  - by rewrite length_fmap.
  - by rewrite length_fmap.
  - apply Forall_forall. intros r Hr'%Hr%elem_of_seq. lia.
  - apply Forall_forall. intros j Hj'%Hj%elem_of_seq. lia.
Qed.

Lemma exhaustive_lsa_is_Ok (m : list (list F)) :
  length m = 0 ∨ length (hd [] m) = 0
  ∨ Forall (Forall (λ x, finite x = true)) m →
  is_Ok (exhaustive_lsa m).
Proof.
  intros Hm. unfold exhaustive_lsa. case_decide as Hdim; [by eexists|].
  destruct Hm as [?|[?|Hfin]]; [lia..|].
  assert (forallb (forallb finite) m = true) as ->.
  { apply forallb_Forall_true. eapply Forall_impl; [done|].
    intros row Hrow. by apply forallb_Forall_true. }
  destruct (matchings _ _ _) as [|a rest] eqn:Hms; [|by eexists].
  apply matchings_nonempty in Hms; [done|rewrite length_seq; lia..].
Qed.

(** The contract holds of the reference solver, whatever the geometric
    costs are. *)
Lemma exhaustive_lsa_contract (l1 giou : list F → list F → F) :
  @lsa_contract F _ {| poly_l1 := l1; obox_giou := giou;
                       linear_sum_assignment := exhaustive_lsa |}.
Proof.
  intros m _. split.
  - intros rc Hrc. by apply exhaustive_lsa_ok.
  - apply exhaustive_lsa_is_Ok.
Qed.

End ExhaustiveLemmas.

(** ** The matcher on a valid batch *)

Section Forward.

Context {F : Type} `{Scalar F} `{!Externals F}.
Implicit Types (self : HungarianMatcher F) (outputs : Outputs F)
  (targets : list (Target F)).

Lemma tab_rectangular R G (e : nat → nat → F) : rectangular (tab R G e).
Proof.
  unfold rectangular, ncols. destruct R as [|R]; [constructor|].
  apply Forall_forall. intros row Hrow%tab_row_length.
  cbn. by rewrite length_fmap, length_seq.
Qed.

Lemma tab_ncols R G (e : nat → nat → F) : 0 < R → ncols (tab R G e) = G.
Proof.
  intros HR. unfold ncols. destruct R as [|R]; [lia|].
  cbn. by rewrite length_fmap, length_seq.
Qed.

Lemma image_costs_lookup B Q K self outputs targets i :
  valid_batch B Q K outputs targets → i < B →
  ∃ m, image_costs self outputs targets !! i = Some m
       ∧ rectangular m ∧ length m = Q ∧ ncols m = num_targets targets i.
Proof.
  intros (HB & HQ & Hlog & _ & _ & Hlen & _) Hi.
  destruct (lookup_lt_is_Some_2 targets i ltac:(lia)) as [tgt Htgt].
  eexists. unfold image_costs. rewrite list_lookup_imap, Htgt. cbn.
  split; [done|]. unfold image_cost, num_targets. rewrite Htgt. cbn.
  destruct (shape3_lookup _ _ _ _ i Hlog Hi) as [-> _].
  split_and!; [apply tab_rectangular|apply tab_length|by apply tab_ncols].
Qed.

Lemma image_costs_length self outputs targets :
  length (image_costs self outputs targets) = length targets.
Proof. unfold image_costs. by rewrite length_imap. Qed.

Lemma forward_per_image_eq B Q K self outputs targets :
  valid_batch B Q K outputs targets →
  forward self outputs targets = forward_per_image self outputs targets.
Proof.
  intros Hvalid. apply forward_solves_inputs. by eapply solver_inputs_valid.
Qed.

(** Whenever [forward] returns on a valid batch, it returns one tuple of
    two index tensors per image, which hold what the solver returned for
    the cost matrix of that image. *)
Lemma forward_Ok_assignments B Q K self outputs targets res :
  lsa_contract → valid_batch B Q K outputs targets →
  forward self outputs targets = Ok res →
  length res = B
  ∧ ∀ i, i < B →
      ∃ ri ci, res !! i = Some [as_tensor_int64 ri; as_tensor_int64 ci]
               ∧ assignment_ok Q (num_targets targets i) (ri, ci).
Proof.
  intros Hlsa Hvalid. rewrite (forward_per_image_eq B Q K) by done.
  unfold forward_per_image.
  destruct (mapM _ _) as [indices|e] eqn:Hind; [|done].
  rewrite bind_Ok. intros [= <-].
  pose proof (mapM_Ok_length _ _ _ Hind) as Hlen.
  rewrite image_costs_length in Hlen.
  assert (length targets = B) as HlenB by apply Hvalid.
  split; [rewrite length_fmap; congruence|].
  intros i Hi.
  destruct (lookup_lt_is_Some_2 indices i ltac:(lia)) as [[ri ci] Hrc].
  exists ri, ci. rewrite list_lookup_fmap, Hrc. split; [done|].
  destruct (mapM_Ok_lookup _ _ _ _ _ Hind Hrc) as (m & Hm & Hsolve).
  destruct (image_costs_lookup B Q K self outputs targets i Hvalid Hi)
    as (m' & Hm' & Hrect & Hrows & Hcols).
  simplify_eq. rewrite <-Hcols.
  by apply (Hlsa m Hrect).
Qed.

(** On a valid batch whose costs are finite, [forward] returns. *)
Lemma forward_is_Ok B Q K self outputs targets :
  lsa_contract → valid_batch B Q K outputs targets →
  finite_costs self outputs targets →
  is_Ok (forward self outputs targets).
Proof.
  intros Hlsa Hvalid Hfin. rewrite (forward_per_image_eq B Q K) by done.
  unfold forward_per_image.
  destruct (mapM_is_Ok linear_sum_assignment
              (image_costs self outputs targets)) as [indices ->].
  - apply Forall_lookup. intros i m Hm.
    assert (i < B) as Hi.
    { apply lookup_lt_Some in Hm. rewrite image_costs_length in Hm.
      destruct Hvalid as (_ & _ & _ & _ & _ & <- & _). done. }
    destruct (image_costs_lookup B Q K self outputs targets i Hvalid Hi)
      as (m' & Hm' & Hrect & _). simplify_eq.
    apply (Hlsa m Hrect). right. right.
    apply (Forall_lookup_1 _ _ _ _ Hfin Hm).
  - by eexists.
Qed.

Lemma forward_valid_result B Q K self outputs targets :
  lsa_contract → valid_batch B Q K outputs targets →
  finite_costs self outputs targets →
  ∃ res, forward self outputs targets = Ok res ∧ length res = B
    ∧ ∀ i, i < B →
        ∃ ri ci, res !! i = Some [as_tensor_int64 ri; as_tensor_int64 ci]
                 ∧ assignment_ok Q (num_targets targets i) (ri, ci).
Proof.
  intros Hlsa Hvalid Hfin.
  destruct (forward_is_Ok B Q K self outputs targets) as [res Hres]; [done..|].
  exists res. split; [done|]. by eapply forward_Ok_assignments.
Qed.

(** Index arrays as int64 tensors. *)
Lemma StronglySorted_lt_NoDup (l : list nat) : StronglySorted lt l → NoDup l.
Proof.
  induction 1 as [|x l _ IH Hx]; constructor; [|done].
  intros Hin. rewrite Forall_forall in Hx. specialize (Hx _ Hin). lia.
Qed.

Lemma StronglySorted_of_nat (l : list nat) :
  StronglySorted lt l → StronglySorted Z.lt (Z.of_nat <$> l).
Proof. apply StronglySorted_fmap. intros x y Hxy. cbn. lia. Qed.

Lemma Forall_of_nat_range (l : list nat) n :
  Forall (λ i, i < n) l →
  Forall (λ z, (0 ≤ z < Z.of_nat n)%Z) (Z.of_nat <$> l).
Proof.
  intros Hl. apply Forall_fmap. eapply Forall_impl; [done|].
  intros i Hi. unfold compose. cbn in *. lia.
Qed.

(** Distinct indices below [n], [n] of them, are all the indices below
    [n]. *)
Lemma NoDup_range_full (l : list nat) n j :
  NoDup l → Forall (λ i, i < n) l → length l = n → j < n → j ∈ l.
Proof.
  intros Hnd Hl Hlen Hj.
  assert (l ≡ₚ seq 0 n) as ->.
  { apply submseteq_length_Permutation; [|rewrite length_seq; lia].
    apply NoDup_submseteq; [done|]. intros i Hi. apply elem_of_seq.
    rewrite Forall_forall in Hl. specialize (Hl _ Hi). lia. }
  apply elem_of_seq. lia.
Qed.

End Forward.

(** ** The properties of the matcher *)

Section Claims.

Context {F : Type} `{Scalar F} `{!Externals F}.
Implicit Types (self : HungarianMatcher F) (outputs : Outputs F)
  (targets : list (Target F)).

(** C1, as the code has it: whenever [forward] returns, the result of every
    image is a tuple of exactly two components, the int64 tensor of the
    prediction indices and the int64 tensor of the target indices.  No
    third component with the IoU of the matched pairs is returned, although
    the docstring of [forward] announces [index_i, index_j, i_j_iou]. *)
Theorem forward_returns_index_pairs self outputs targets res :
  forward self outputs targets = Ok res →
  Forall (λ tup, ∃ i j : list Z, tup = [Int64Tensor i; Int64Tensor j]) res.
Proof.
  unfold forward.
  destruct (forward_costs self outputs targets) as [costs|e]; [|done].
  rewrite bind_Ok.
  destruct (forward_split costs targets) as [cs|e]; [|done].
  rewrite bind_Ok.
  destruct (mapM _ _) as [indices|e]; [|done].
  rewrite bind_Ok. intros [= <-].
  apply Forall_fmap, Forall_true. intros [ri ci]. cbn.
  by exists (Z.of_nat <$> ri), (Z.of_nat <$> ci).
Qed.

(** C2: on a valid batch the classification cost is computed, and its entry
    for row [r] of the flattened predictions and column [g] of the
    concatenated targets is
    α·(1−p)^γ·(−log(p+ε)) − (1−α)·p^γ·(−log(1−p+ε)),
    where [p] is the sigmoid of the logit that prediction [r] gives to the
    class [c] of target [g]. *)
Theorem cost_class_is_focal B Q K self outputs targets :
  valid_batch B Q K outputs targets →
  ∃ costs, forward_costs self outputs targets = Ok costs
    ∧ ∀ r g row c,
        mjoin (pred_logits outputs) !! r = Some row →
        mjoin (labels <$> targets) !! g = Some c →
        ∃ x, row !! Z.to_nat c = Some x
             ∧ t_cost_class costs !! r ≫= (.!! g)
               = Some (focal_cost (sigmoid x)).
Proof.
  intros Hvalid. eexists. split; [by apply (forward_costs_valid B Q K)|].
  cbn [t_cost_class]. intros r g row c Hrow Hc.
  destruct (valid_batch_join_lengths _ _ _ _ _ Hvalid) as (Hl & _).
  destruct Hvalid as (_ & _ & Hlog & _ & _ & _ & Hv).
  assert (r < B * Q) as Hr.
  { rewrite <-(shape3_join_length _ _ _ _ Hlog). by eapply lookup_lt_Some. }
  assert (g < sum_list (counts targets)) as Hg.
  { rewrite <-Hl. by eapply lookup_lt_Some. }
  assert (length row = K) as Hlen.
  { apply (Forall_lookup_1 _ _ _ _ (shape3_join_width _ _ _ _ Hlog) Hrow). }
  assert (0 ≤ c < Z.of_nat K)%Z as Hrange.
  { assert (Forall (λ c, (0 ≤ c < Z.of_nat K)%Z)
              (mjoin (labels <$> targets))) as Hids.
    { apply Forall_join, Forall_fmap. eapply Forall_impl; [done|].
      by intros v [? _]. }
    apply (Forall_lookup_1 _ _ _ _ Hids Hc). }
  destruct (lookup_lt_is_Some_2 row (Z.to_nat c) ltac:(lia)) as [x Hx].
  exists x. split; [done|]. rewrite tab_lookup by done.
  unfold flat_class_cost.
  rewrite (list_lookup_total_correct _ _ _ Hrow).
  rewrite (list_lookup_total_correct _ _ _ Hc).
  by rewrite (list_lookup_total_correct _ _ _ Hx).
Qed.

(** C3: on a valid batch with finite costs [forward] returns, and for every
    image [i] both index sequences have exactly [min Q N_i] entries; when
    [N_i ≤ Q] every target of the image occurs among the target
    indices. *)
Theorem forward_match_count B Q K self outputs targets :
  lsa_contract → valid_batch B Q K outputs targets →
  finite_costs self outputs targets →
  ∃ res, forward self outputs targets = Ok res ∧ length res = B
    ∧ ∀ i, i < B →
        ∃ pi ti, res !! i = Some [Int64Tensor pi; Int64Tensor ti]
          ∧ length pi = Q `min` num_targets targets i
          ∧ length ti = Q `min` num_targets targets i
          ∧ (num_targets targets i ≤ Q →
             ∀ t, t < num_targets targets i → Z.of_nat t ∈ ti).
Proof.
  intros Hlsa Hvalid Hfin.
  destruct (forward_valid_result B Q K self outputs targets Hlsa Hvalid Hfin)
    as (res & Hres & Hlen & Hall).
  exists res. split_and!; [done..|]. intros i Hi.
  destruct (Hall i Hi) as (ri & ci & Hi' & Hr & Hc & _ & _ & Hnd & Hlt).
  cbn in *. exists (Z.of_nat <$> ri), (Z.of_nat <$> ci).
  rewrite !length_fmap. split_and!; [done..|].
  intros Hle t Ht. apply list_elem_of_fmap_2.
  apply (NoDup_range_full ci (num_targets targets i)); [done..|lia|done].
Qed.

(** C4: the constructor raises exactly when none of the three weights
    passes the test [w != 0], and otherwise returns the matcher holding the
    three weights. *)
Theorem init_fails_iff_all_weights_zero (wc wb wg : F) :
  (HungarianMatcher_init wc wb wg = Raise AssertionError
   ↔ nonzero wc = false ∧ nonzero wb = false ∧ nonzero wg = false)
  ∧ (HungarianMatcher_init wc wb wg
       = Ok {| cost_class := wc; cost_bbox := wb; cost_giou := wg |}
     ↔ nonzero wc = true ∨ nonzero wb = true ∨ nonzero wg = true).
Proof.
  unfold HungarianMatcher_init.
  destruct (nonzero wc), (nonzero wb), (nonzero wg); cbn;
    (split; (split; [intros [=] || intros _; auto
                    |intros (? & ? & ?) || intros [?|[?|?]]; done])).
Qed.

(** C5: on a valid batch with finite costs [forward] returns, and for every
    image without targets both index sequences are empty. *)
Theorem forward_no_targets_no_matches B Q K self outputs targets :
  lsa_contract → valid_batch B Q K outputs targets →
  finite_costs self outputs targets →
  ∃ res, forward self outputs targets = Ok res
    ∧ ∀ i, i < B → num_targets targets i = 0 →
        res !! i = Some [Int64Tensor []; Int64Tensor []].
Proof.
  intros Hlsa Hvalid Hfin.
  destruct (forward_valid_result B Q K self outputs targets Hlsa Hvalid Hfin)
    as (res & Hres & Hlen & Hall).
  exists res. split; [done|]. intros i Hi Hzero.
  destruct (Hall i Hi) as (ri & ci & Hi' & Hr & Hc & _). cbn in *.
  rewrite Hzero, Nat.min_0_r in Hr, Hc.
  apply nil_length_inv in Hr, Hc. by subst.
Qed.

(** C6: on a valid batch, the matrix handed to the solver for image [i] has
    one row per prediction and one column per target of the image, and its
    entry for prediction [q] and target [t] is
    cost_class·(classification cost) + cost_bbox·(polygon L1 cost)
    + cost_giou·(generalized-IoU cost), with the weights of the matcher.
    The code adds the class and the box terms in the other order, hence the
    commutativity of the addition. *)
Theorem solver_cost_is_weighted_sum B Q K self outputs targets :
  (∀ x y : F, add x y = add y x) →
  valid_batch B Q K outputs targets →
  ∃ ms, solver_inputs self outputs targets = Ok ms ∧ length ms = B
    ∧ ∀ i tgt, targets !! i = Some tgt →
        ∃ m, ms !! i = Some m ∧ shape2 m Q (length (labels tgt))
          ∧ ∀ q t, q < Q → t < length (labels tgt) →
              m !! q ≫= (.!! t)
              = Some (weighted_cost self
                        (class_cost_at (pred_logits outputs !!! i) tgt q t)
                        (bbox_cost_at (pred_polys outputs !!! i) tgt q t)
                        (giou_cost_at (pred_boxes outputs !!! i) tgt q t)).
Proof.
  intros Hcomm Hvalid. exists (image_costs self outputs targets).
  split; [by apply (solver_inputs_valid B Q K)|].
  pose proof Hvalid as (_ & _ & Hlog & _ & _ & Hlen & _).
  split; [by rewrite image_costs_length|].
  intros i tgt Htgt.
  assert (i < B) as Hi by (rewrite <-Hlen; by eapply lookup_lt_Some).
  eexists. unfold image_costs. rewrite list_lookup_imap, Htgt. cbn.
  split; [done|]. unfold image_cost.
  destruct (shape3_lookup _ _ _ _ i Hlog Hi) as [-> _].
  split.
  - split; [apply tab_length|].
    apply Forall_forall. intros row. apply tab_row_length.
  - intros q t Hq Ht. rewrite tab_lookup by done.
    unfold final_cost_entry, weighted_cost. f_equal. f_equal. apply Hcomm.
Qed.

(** C7: on a valid batch, (1) the matrix handed to the solver for image [i]
    is the cost matrix of image [i] computed from its own predictions and
    targets, (2) so that [forward] returns what solving every image on its
    own returns, and (3) that matrix is the part of the batched cost matrix
    [C] in the rows [i·Q .. i·Q+Q-1] of image [i] and in the columns
    [offset i .. offset i + N_i - 1], where [offset i = N_0 + .. + N_(i-1)]
    follows the order in which the targets are concatenated. *)
Theorem forward_refines_per_image B Q K self outputs targets :
  valid_batch B Q K outputs targets →
  solver_inputs self outputs targets = Ok (image_costs self outputs targets)
  ∧ forward self outputs targets = forward_per_image self outputs targets
  ∧ ∃ costs, forward_costs self outputs targets = Ok costs
      ∧ ∀ i q t, i < B → q < Q → t < num_targets targets i →
          (image_costs self outputs targets !! i ≫= (.!! q)) ≫= (.!! t)
          = C costs !! (i * Q + q) ≫= (.!! (offset targets i + t)).
Proof.
  intros Hvalid.
  split; [by apply (solver_inputs_valid B Q K)|].
  split; [by apply (forward_per_image_eq B Q K)|].
  eexists. split; [by apply (forward_costs_valid B Q K)|].
  cbn [C]. intros i q t Hi Hq Ht.
  pose proof Hvalid as (_ & _ & Hlog & _ & _ & Hlen & _).
  destruct (lookup_lt_is_Some_2 targets i ltac:(lia)) as [tgt Htgt].
  pose proof (offset_bound targets i ltac:(lia)) as Hoff.
  unfold num_targets in Ht, Hoff. rewrite Htgt in Ht, Hoff. cbn in Ht, Hoff.
  rewrite tab_lookup by (nia || lia).
  unfold image_costs. rewrite list_lookup_imap, Htgt. cbn.
  unfold image_cost.
  destruct (shape3_lookup _ _ _ _ i Hlog Hi) as [-> _].
  rewrite tab_lookup by done.
  rewrite (flat_class_cost_block _ Q K _ _ Hvalid i q t tgt Htgt Hq Ht).
  rewrite (flat_bbox_cost_block _ Q K _ _ Hvalid i q t tgt Htgt Hq Ht).
  by rewrite (flat_giou_cost_block _ Q K _ _ Hvalid i q t tgt Htgt Hq Ht).
Qed.

(** C8: on a valid batch with finite costs [forward] returns, and for every
    image the prediction indices are pairwise distinct and lie in
    [0 .. Q-1], and the target indices are pairwise distinct and lie in
    [0 .. N_i-1]. *)
Theorem forward_indices_distinct_in_range B Q K self outputs targets :
  lsa_contract → valid_batch B Q K outputs targets →
  finite_costs self outputs targets →
  ∃ res, forward self outputs targets = Ok res
    ∧ ∀ i, i < B →
        ∃ pi ti, res !! i = Some [Int64Tensor pi; Int64Tensor ti]
          ∧ NoDup pi ∧ NoDup ti
          ∧ Forall (λ p, (0 ≤ p < Z.of_nat Q)%Z) pi
          ∧ Forall (λ t, (0 ≤ t < Z.of_nat (num_targets targets i))%Z) ti.
Proof.
  intros Hlsa Hvalid Hfin.
  destruct (forward_valid_result B Q K self outputs targets Hlsa Hvalid Hfin)
    as (res & Hres & Hlen & Hall).
  exists res. split; [done|]. intros i Hi.
  destruct (Hall i Hi) as (ri & ci & Hi' & _ & _ & Hs & Hrlt & Hnd & Hclt).
  cbn in *. exists (Z.of_nat <$> ri), (Z.of_nat <$> ci).
  split_and!; [done| | |by apply Forall_of_nat_range..].
  - by apply (NoDup_fmap_2 _), StronglySorted_lt_NoDup.
  - by apply (NoDup_fmap_2 _).
Qed.

(** C10: on a valid batch with finite costs [forward] returns, and for
    every image the prediction indices are strictly increasing. *)
Theorem forward_prediction_indices_increasing B Q K self outputs targets :
  lsa_contract → valid_batch B Q K outputs targets →
  finite_costs self outputs targets →
  ∃ res, forward self outputs targets = Ok res
    ∧ ∀ i, i < B →
        ∃ pi ti, res !! i = Some [Int64Tensor pi; Int64Tensor ti]
          ∧ StronglySorted Z.lt pi.
Proof.
  intros Hlsa Hvalid Hfin.
  destruct (forward_valid_result B Q K self outputs targets Hlsa Hvalid Hfin)
    as (res & Hres & Hlen & Hall).
  exists res. split; [done|]. intros i Hi.
  destruct (Hall i Hi) as (ri & ci & Hi' & _ & _ & Hs & _).
  cbn in *. exists (Z.of_nat <$> ri), (Z.of_nat <$> ci).
  split; [done|]. by apply StronglySorted_of_nat.
Qed.

End Claims.

(** ** Exceptions *)

Lemma raises_not_Ok {A} (m : result A) a : raises m → m ≠ Ok a.
Proof. by intros [e ->]. Qed.

Lemma not_Ok_raises {A} (m : result A) : (∀ a, m ≠ Ok a) → raises m.
Proof. destruct m as [a|e]; [by intros Hm; destruct (Hm a)|by exists e]. Qed.

Lemma bind_raises {A B} (m : result A) (f : A → result B) :
  raises m → raises (m ≫= f).
Proof. intros [e ->]. by exists e. Qed.

Lemma bind_raises_then {A B} (m : result A) (f : A → result B) :
  (∀ a, m = Ok a → raises (f a)) → raises (m ≫= f).
Proof. destruct m as [a|e]; [by intros Hf; apply Hf|by exists e]. Qed.

Lemma mapM_raises {A B} (f : A → result B) (l : list A) x :
  x ∈ l → raises (f x) → raises (mapM f l).
Proof.
  intros Hx Hfx. apply not_Ok_raises. intros k Hk%mapM_Ok_Forall2.
  apply list_elem_of_lookup in Hx as [i Hi].
  destruct (Forall2_lookup_l _ _ _ _ _ Hk Hi) as (y & _ & Hy).
  by apply (raises_not_Ok _ y) in Hfx.
Qed.

Lemma mapM_Raise_inv {A B} (f : A → result B) (l : list A) e :
  mapM f l = Raise e → ∃ x, x ∈ l ∧ f x = Raise e.
Proof.
  induction l as [|x l IH]; [done|]. rewrite mapM_cons.
  destruct (f x) as [y|e'] eqn:Hx.
  - rewrite bind_Ok. destruct (mapM f l) as [k|e'']; [done|].
    intros [= ->]. destruct IH as (x' & Hin & Hx'); [done|].
    exists x'. split; [by right|done].
  - intros [= ->]. exists x. split; [left|done].
Qed.

Lemma mapM_app {A B} (f : A → result B) (l1 l2 : list A) :
  mapM f (l1 ++ l2) = k1 ← mapM f l1; k2 ← mapM f l2; mret (k1 ++ k2).
Proof.
  induction l1 as [|x l1 IH]; cbn [app].
  - rewrite mapM_nil, bind_Ok. by destruct (mapM f l2).
  - rewrite !mapM_cons, IH. destruct (f x); [|done]. rewrite !bind_Ok.
    destruct (mapM f l1); [|done]. rewrite !bind_Ok.
    by destruct (mapM f l2).
Qed.

(** ** What [forward] does with other batches *)

Section Extras.

Context {F : Type} `{Scalar F} `{!Externals F}.
Implicit Types (self : HungarianMatcher F) (outputs : Outputs F)
  (targets : list (Target F)).

(** Take a successful step apart. *)
Ltac bind_inv H :=
  repeat lazymatch type of H with
    | ?m ≫= _ = Ok _ =>
        let E := fresh "Hstep" in
        destruct m eqn:E; [rewrite bind_Ok in H|discriminate H]
    end.

Lemma forward_costs_dims self outputs targets costs :
  forward_costs self outputs targets = Ok costs →
  bs costs = length (pred_logits outputs)
  ∧ num_queries costs = length (hd [] (pred_logits outputs)).
Proof.
  unfold forward_costs. intros Hc. bind_inv Hc.
  injection Hc as <-. done.
Qed.

Lemma view3_Ok_length {A} b q (M : list (list A)) C3 :
  view3 b q M = Ok C3 → length C3 = b.
Proof.
  unfold view3. repeat case_decide; try done. intros [= <-].
  by rewrite length_fmap, length_seq.
Qed.

Lemma forward_split_Ok costs targets cs :
  forward_split costs targets = Ok cs →
  length cs = length targets
  ∧ ∀ i c, cs !! i = Some c → length c = bs costs.
Proof.
  unfold forward_split. intros Hs. bind_inv Hs.
  unfold split in Hs. case_decide; [|done]. injection Hs as <-.
  split; [by rewrite split_last_length, length_fmap|].
  intros i c Hc.
  assert (i < length ((λ v : Target F, length (boxes v)) <$> targets)) as Hi.
  { apply lookup_lt_Some in Hc. by rewrite split_last_length in Hc. }
  destruct (lookup_lt_is_Some_2 _ _ Hi) as [n Hn].
  rewrite (split_last_lookup _ _ _ _ _ Hn) in Hc. simplify_eq.
  rewrite length_fmap. by eapply view3_Ok_length.
Qed.

(** X1: the weights given to [build_matcher] are the weights of the cost
    that reaches the solver: on a valid batch, every entry handed to the
    solver by the matcher built from [args] is
    set_cost_bbox·(L1 cost) + set_cost_class·(classification cost)
    + set_cost_giou·(generalized-IoU cost). *)
Theorem build_matcher_weights B Q K args self outputs targets :
  build_matcher args = Ok self →
  valid_batch B Q K outputs targets →
  ∃ ms, solver_inputs self outputs targets = Ok ms
    ∧ ∀ i tgt, targets !! i = Some tgt →
        ∃ m, ms !! i = Some m
          ∧ ∀ q t, q < Q → t < length (labels tgt) →
              m !! q ≫= (.!! t)
              = Some (add
                  (add (mul (set_cost_bbox args)
                          (bbox_cost_at (pred_polys outputs !!! i) tgt q t))
                       (mul (set_cost_class args)
                          (class_cost_at (pred_logits outputs !!! i) tgt q t)))
                  (mul (set_cost_giou args)
                     (giou_cost_at (pred_boxes outputs !!! i) tgt q t))).
Proof.
  intros Hbuild Hvalid.
  assert (self = {| cost_class := set_cost_class args;
                    cost_bbox := set_cost_bbox args;
                    cost_giou := set_cost_giou args |}) as ->.
  { unfold build_matcher, HungarianMatcher_init in Hbuild.
    destruct (_ || _); by simplify_eq. }
  eexists. split; [by apply (solver_inputs_valid B Q K)|].
  pose proof Hvalid as (_ & _ & Hlog & _ & _ & Hlen & _).
  intros i tgt Htgt.
  assert (i < B) as Hi by (rewrite <-Hlen; by eapply lookup_lt_Some).
  eexists. unfold image_costs. rewrite list_lookup_imap, Htgt. cbn.
  split; [done|]. unfold image_cost.
  destruct (shape3_lookup _ _ _ _ i Hlog Hi) as [-> _].
  intros q t Hq Ht. by rewrite tab_lookup.
Qed.

(** X2: an empty batch raises: [forward] returns no empty list when the
    list of targets is empty, when the outputs hold no image or when the
    images hold no prediction. *)
Theorem forward_empty_batch_raises self outputs targets :
  targets = []
  ∨ length (pred_logits outputs) * length (hd [] (pred_logits outputs))
    = 0 →
  raises (forward self outputs targets).
Proof.
  intros [->|Hzero]; [by exists RuntimeError|].
  unfold forward. apply bind_raises_then. intros costs Hcosts.
  apply bind_raises. unfold forward_split. apply bind_raises.
  destruct (forward_costs_dims _ _ _ _ Hcosts) as [-> ->].
  unfold view3. rewrite decide_True by done. by eexists.
Qed.

(** X3: more entries in the list of targets than images in the outputs
    raise. *)
Theorem forward_surplus_targets_raise self outputs targets :
  length (pred_logits outputs) < length targets →
  raises (forward self outputs targets).
Proof.
  intros Hlt. unfold forward.
  apply bind_raises_then. intros costs Hcosts.
  apply bind_raises_then. intros cs Hcs.
  apply bind_raises.
  destruct (forward_costs_dims _ _ _ _ Hcosts) as [Hbs _].
  destruct (forward_split_Ok _ _ _ Hcs) as [Hlen Hrows].
  set (B := length (pred_logits outputs)) in *.
  destruct (lookup_lt_is_Some_2 cs B ltac:(lia)) as [c Hc].
  apply (mapM_raises _ _ (B, c)).
  - unfold enumerate. apply list_elem_of_lookup. exists B.
    by rewrite list_lookup_imap, Hc.
  - cbn. apply bind_raises. unfold getitem0.
    rewrite lookup_ge_None_2; [by eexists|].
    rewrite (Hrows _ _ Hc). lia.
Qed.

(** X4: whenever [forward] returns, it returns one tuple per entry of the
    list of targets, whatever the number of images in the outputs. *)
Theorem forward_result_count self outputs targets res :
  forward self outputs targets = Ok res → length res = length targets.
Proof.
  unfold forward. intros Hf. bind_inv Hf. injection Hf as <-.
  rewrite length_fmap.
  match goal with Hm : mapM _ _ = Ok _ |- _ =>
    rewrite (mapM_Ok_length _ _ _ Hm) end.
  unfold enumerate. rewrite length_imap.
  match goal with Hs : forward_split _ _ = Ok _ |- _ =>
    apply (forward_split_Ok _ _ _ Hs) end.
Qed.

(** X5: on a valid batch [forward] raises nothing of its own: an exception
    of [forward] is the exception that [linear_sum_assignment] raised on
    the cost matrix of one of the images. *)
Theorem forward_raises_only_from_solver B Q K self outputs targets e :
  valid_batch B Q K outputs targets →
  forward self outputs targets = Raise e →
  ∃ i m, image_costs self outputs targets !! i = Some m
         ∧ linear_sum_assignment m = Raise e.
Proof.
  intros Hvalid. rewrite (forward_per_image_eq B Q K) by done.
  unfold forward_per_image.
  destruct (mapM _ _) as [indices|e'] eqn:Hm; [done|].
  intros [= ->]. apply mapM_Raise_inv in Hm as (m & Hin & Hm).
  apply list_elem_of_lookup in Hin as [i Hi]. eauto.
Qed.

(** Labels outside the classes, and negative labels. *)
Lemma getitem_out_of_range {A} (row : list A) (c : Z) :
  ¬ (- Z.of_nat (length row) ≤ c < Z.of_nat (length row))%Z →
  getitem row c = Raise IndexError.
Proof.
  intros Hc. unfold getitem.
  destruct (decide (c < 0)%Z); cbn; by rewrite decide_False by lia.
Qed.

Lemma getitem_wrap {A} (row : list A) (c : Z) :
  getitem row (wrap_label (length row) c) = getitem row c.
Proof.
  unfold wrap_label, getitem.
  destruct (decide (- Z.of_nat (length row) ≤ c < 0)%Z) as [Hc|Hc]; [|done].
  destruct (decide (c + Z.of_nat (length row) < 0)%Z); [lia|].
  destruct (decide (c < 0)%Z); [done|lia].
Qed.

Lemma mapM_fmap_compose {A' A B} (f : A → result B) (h : A' → A) l :
  mapM f (h <$> l) = mapM (f ∘ h) l.
Proof.
  induction l as [|x l IH]; [done|].
  by rewrite fmap_cons, !mapM_cons, IH.
Qed.

Lemma mapM_ext_in {A B} (f g : A → result B) l :
  Forall (λ x, f x = g x) l → mapM f l = mapM g l.
Proof.
  induction 1 as [|x l Hx _ IH]; [done|]. by rewrite !mapM_cons, Hx, IH.
Qed.

Lemma index_cols_wrap {A} (m : list (list A)) (ids : list Z) K :
  Forall (λ row, length row = K) m →
  index_cols m (wrap_label K <$> ids) = index_cols m ids.
Proof.
  intros Hm. unfold index_cols. apply mapM_ext_in.
  eapply Forall_impl; [done|]. intros row <-. cbn.
  rewrite mapM_fmap_compose. apply mapM_ext_in, Forall_true.
  intros c. apply getitem_wrap.
Qed.

Lemma index_cols_raises {A} (m : list (list A)) (ids : list Z) K c :
  m ≠ [] → Forall (λ row, length row = K) m → c ∈ ids →
  ¬ (- Z.of_nat K ≤ c < Z.of_nat K)%Z →
  raises (index_cols m ids).
Proof.
  intros Hne Hm Hc Hout. destruct m as [|row m]; [done|].
  apply Forall_cons_1 in Hm as [<- _]. unfold index_cols.
  apply (mapM_raises _ _ row); [left|].
  apply (mapM_raises _ _ c); [done|].
  exists IndexError. by apply getitem_out_of_range.
Qed.

Lemma fmap_rows_length {A B} (f : A → B) (m : list (list A)) K :
  Forall (λ row, length row = K) m →
  Forall (λ row, length row = K) ((λ row : list A, f <$> row) <$> m).
Proof.
  intros Hm. apply Forall_fmap. eapply Forall_impl; [done|].
  intros row <-. cbn. by rewrite length_fmap.
Qed.

Lemma join_fmap_fmap {A B} (f : A → B) (ls : list (list A)) :
  mjoin ((λ l : list A, f <$> l) <$> ls) = f <$> mjoin ls.
Proof.
  induction ls as [|l ls IH]; [done|]. csimpl. by rewrite IH, fmap_app.
Qed.

(** X6: a label that is no class and no negative index of a class raises:
    with [K] classes, a target label outside [-K .. K-1] makes [forward]
    raise. *)
Theorem forward_label_out_of_range_raises K self outputs targets tgt c :
  mjoin (pred_logits outputs) ≠ [] →
  Forall (λ row, length row = K) (mjoin (pred_logits outputs)) →
  tgt ∈ targets → c ∈ labels tgt →
  ¬ (- Z.of_nat K ≤ c < Z.of_nat K)%Z →
  raises (forward self outputs targets).
Proof.
  intros Hne Hrows Htgt Hc Hout. unfold forward. apply bind_raises.
  unfold forward_costs.
  rewrite !torch_cat_Ok by (intros Hnil; destruct targets;
                            [by apply elem_of_nil in Htgt|done]).
  rewrite !bind_Ok. apply bind_raises_then. intros tgt_oboxes _.
  apply bind_raises.
  apply (index_cols_raises _ _ K c); [|by do 2 apply fmap_rows_length| |done].
  - by destruct (mjoin (pred_logits outputs)).
  - apply list_elem_of_join. exists (labels tgt).
    split; [done|]. by apply list_elem_of_fmap_2.
Qed.

(** Both sides run the same step next: go on with its result. *)
Ltac same_step :=
  lazymatch goal with
  | |- ?m ≫= _ = ?m ≫= _ => destruct m; [rewrite !bind_Ok|reflexivity]
  end.

Lemma wrap_labels_fields K targets :
  labels <$> (wrap_labels K <$> targets)
    = (λ l : list Z, wrap_label K <$> l) <$> (labels <$> targets)
  ∧ polys <$> (wrap_labels K <$> targets) = polys <$> targets
  ∧ boxes <$> (wrap_labels K <$> targets) = boxes <$> targets
  ∧ theta <$> (wrap_labels K <$> targets) = theta <$> targets
  ∧ (λ v : Target F, length (boxes v)) <$> (wrap_labels K <$> targets)
    = (λ v : Target F, length (boxes v)) <$> targets.
Proof. by rewrite <-!list_fmap_compose. Qed.

(** X7: negative labels are not refused but count from the last class:
    with [K] classes, the label [c - K] of a class [c] gives what the label
    [c] gives (the same result or the same exception). *)
Theorem forward_negative_labels_wrap K self outputs targets :
  Forall (λ row, length row = K) (mjoin (pred_logits outputs)) →
  forward self outputs targets
  = forward self outputs (wrap_labels K <$> targets).
Proof.
  intros Hrows.
  destruct (wrap_labels_fields K targets) as (Hl & Hp & Hb & Ht & Hs).
  unfold forward.
  assert (forward_costs self outputs targets
          = forward_costs self outputs (wrap_labels K <$> targets)) as <-.
  { unfold forward_costs. rewrite Hl, Hp, Hb, Ht.
    destruct targets as [|tgt targets]; [done|].
    rewrite !torch_cat_Ok by done. rewrite !bind_Ok.
    same_step. rewrite join_fmap_fmap, length_fmap.
    rewrite !(index_cols_wrap _ _ K) by by do 2 apply fmap_rows_length.
    done. }
  same_step. unfold forward_split. by rewrite Hs.
Qed.

(** Fewer targets than images. *)
Lemma shape3_take (t : list (list (list F))) b q w n :
  shape3 t b q w → n ≤ b → shape3 (take n t) n q w.
Proof.
  intros [Hlen Ht] Hn. split; [by rewrite length_take_le by lia|].
  by apply Forall_take.
Qed.

Lemma prefix_batch_take B Q K outputs targets :
  prefix_batch B Q K outputs targets →
  valid_batch (length targets) Q K
    (take_images (length targets) outputs) targets.
Proof.
  intros (HQ & Hlog & Hbox & Hpol & [Hpos Hlen] & Hv).
  split_and!; try done; by apply (shape3_take _ B).
Qed.

Lemma image_costs_take self outputs targets :
  image_costs self (take_images (length targets) outputs) targets
  = image_costs self outputs targets.
Proof.
  unfold image_costs. apply imap_ext. intros i tgt Htgt%lookup_lt_Some. cbn.
  by rewrite !lookup_total_take_lt.
Qed.

(** X8: the number of targets entries is not compared with the batch size:
    given fewer entries than images, [forward] raises nothing for it and
    returns what it returns for the first images alone; the images without
    an entry are left out without notice. *)
Theorem forward_ignores_surplus_images B Q K self outputs targets :
  prefix_batch B Q K outputs targets →
  forward self outputs targets
  = forward self (take_images (length targets) outputs) targets.
Proof.
  intros Hprefix.
  rewrite (forward_solves_inputs self outputs targets
             (image_costs self outputs targets))
    by by apply (solver_inputs_prefix B Q K).
  rewrite (forward_solves_inputs self (take_images _ outputs) targets
             (image_costs self outputs targets)); [done|].
  rewrite <-image_costs_take.
  apply (solver_inputs_valid (length targets) Q K).
  by eapply prefix_batch_take.
Qed.

(** What [forward] returns for one image. *)
Lemma forward_Ok_image B Q K self outputs targets res i :
  valid_batch B Q K outputs targets →
  forward self outputs targets = Ok res → i < B →
  ∃ tgt rc,
    targets !! i = Some tgt
    ∧ linear_sum_assignment
        (image_cost self (pred_logits outputs !!! i) (pred_boxes outputs !!! i)
           (pred_polys outputs !!! i) tgt) = Ok rc
    ∧ res !! i = Some [as_tensor_int64 rc.1; as_tensor_int64 rc.2].
Proof.
  intros Hvalid Hres Hi. rewrite (forward_per_image_eq B Q K) in Hres by done.
  unfold forward_per_image in Hres.
  destruct (mapM _ _) as [indices|e] eqn:Hm; [|done].
  rewrite bind_Ok in Hres. injection Hres as <-.
  destruct Hvalid as (_ & _ & _ & _ & _ & Hlen & _).
  destruct (lookup_lt_is_Some_2 targets i ltac:(lia)) as [tgt Htgt].
  pose proof (mapM_Ok_length _ _ _ Hm) as Hlen'.
  rewrite image_costs_length in Hlen'.
  destruct (lookup_lt_is_Some_2 indices i ltac:(lia)) as [rc Hrc].
  destruct (mapM_Ok_lookup _ _ _ _ _ Hm Hrc) as (m & Hm' & Hsolve).
  unfold image_costs in Hm'. rewrite list_lookup_imap, Htgt in Hm'.
  cbn in Hm'. simplify_eq.
  exists tgt, rc. by rewrite list_lookup_fmap, Hrc.
Qed.

(** X9: the matching of an image depends on nothing but the image: two
    valid batches that hold the same image (the same predictions and the
    same targets), at whatever positions and whatever else they hold, get
    the same indices for it. *)
Theorem forward_image_independent B1 B2 Q1 Q2 K1 K2 self
    outputs1 outputs2 targets1 targets2 res1 res2 i j :
  valid_batch B1 Q1 K1 outputs1 targets1 →
  valid_batch B2 Q2 K2 outputs2 targets2 →
  i < B1 → j < B2 →
  pred_logits outputs1 !! i = pred_logits outputs2 !! j →
  pred_boxes outputs1 !! i = pred_boxes outputs2 !! j →
  pred_polys outputs1 !! i = pred_polys outputs2 !! j →
  targets1 !! i = targets2 !! j →
  forward self outputs1 targets1 = Ok res1 →
  forward self outputs2 targets2 = Ok res2 →
  res1 !! i = res2 !! j.
Proof.
  intros Hv1 Hv2 Hi Hj Hl Hb Hp Ht Hr1 Hr2.
  destruct (forward_Ok_image _ _ _ _ _ _ _ i Hv1 Hr1 Hi)
    as (tgt1 & rc1 & Ht1 & Hs1 & ->).
  destruct (forward_Ok_image _ _ _ _ _ _ _ j Hv2 Hr2 Hj)
    as (tgt2 & rc2 & Ht2 & Hs2 & ->).
  rewrite !list_lookup_total_alt, Hl, Hb, Hp in Hs1.
  rewrite !list_lookup_total_alt in Hs2.
  rewrite Ht1, Ht2 in Ht. injection Ht as ->.
  rewrite Hs1 in Hs2. by injection Hs2 as ->.
Qed.

(** Two batches, one after the other. *)
Lemma shape3_app (t1 t2 : list (list (list F))) b1 b2 q w :
  shape3 t1 b1 q w → shape3 t2 b2 q w → shape3 (t1 ++ t2) (b1 + b2) q w.
Proof.
  intros [<- H1] [<- H2]. split; [by rewrite length_app|].
  by apply Forall_app.
Qed.

Lemma valid_batch_app B1 B2 Q K outputs1 outputs2 targets1 targets2 :
  valid_batch B1 Q K outputs1 targets1 →
  valid_batch B2 Q K outputs2 targets2 →
  valid_batch (B1 + B2) Q K (cat_outputs outputs1 outputs2)
    (targets1 ++ targets2).
Proof.
  intros (? & ? & ? & ? & ? & ? & ?) (? & ? & ? & ? & ? & ? & ?).
  split_and!; try done; try lia; try by apply shape3_app.
  - rewrite length_app. lia.
  - by apply Forall_app.
Qed.

Lemma image_costs_app B1 B2 Q K self outputs1 outputs2 targets1 targets2 :
  valid_batch B1 Q K outputs1 targets1 →
  valid_batch B2 Q K outputs2 targets2 →
  image_costs self (cat_outputs outputs1 outputs2) (targets1 ++ targets2)
  = image_costs self outputs1 targets1 ++ image_costs self outputs2 targets2.
Proof.
  intros (_ & _ & [Hl1 _] & [Hb1 _] & [Hp1 _] & Hlen1 & _) _.
  unfold image_costs. rewrite imap_app. f_equal.
  - apply imap_ext. intros i tgt Hi%lookup_lt_Some. cbn.
    by rewrite !lookup_total_app_l by lia.
  - apply imap_ext. intros i tgt _. cbn.
    rewrite !lookup_total_app_r by lia.
    by rewrite Hl1, Hb1, Hp1, Hlen1, Nat.add_comm, Nat.add_sub.
Qed.

(** X10: matching two valid batches in one call is matching them one after
    the other: the result of the joined batch is the result of the first
    followed by the result of the second, and it raises what the first
    raises, or else what the second raises. *)
Theorem forward_cat_batches B1 B2 Q K self outputs1 outputs2
    targets1 targets2 :
  valid_batch B1 Q K outputs1 targets1 →
  valid_batch B2 Q K outputs2 targets2 →
  forward self (cat_outputs outputs1 outputs2) (targets1 ++ targets2)
  = (res1 ← forward self outputs1 targets1;
     res2 ← forward self outputs2 targets2;
     mret (res1 ++ res2)).
Proof.
  intros Hv1 Hv2.
  rewrite (forward_per_image_eq (B1 + B2) Q K) by by apply valid_batch_app.
  rewrite (forward_per_image_eq B1 Q K _ outputs1 targets1) by done.
  unfold forward_per_image.
  rewrite (image_costs_app B1 B2 Q K), mapM_app by done.
  destruct (mapM _ (image_costs self outputs1 targets1)); [|done].
  rewrite !bind_Ok.
  rewrite (forward_per_image_eq B2 Q K _ outputs2 targets2) by done.
  unfold forward_per_image.
  destruct (mapM _ (image_costs self outputs2 targets2)); [|done].
  rewrite !bind_Ok. cbn. by rewrite fmap_app.
Qed.

(** Increasing indices below [n], [n] of them, are [0 .. n-1]. *)
Lemma sorted_range_seq (l : list nat) n :
  StronglySorted lt l → Forall (λ i, i < n) l → length l = n →
  l = seq 0 n.
Proof.
  intros Hs Hl Hlen.
  apply (StronglySorted_unique_strong lt);
    [intros; lia|done|apply StronglySorted_seq|].
  apply submseteq_length_Permutation; [|rewrite length_seq; lia].
  apply NoDup_submseteq; [by apply StronglySorted_lt_NoDup|].
  intros i Hi. apply elem_of_seq.
  rewrite Forall_forall in Hl. specialize (Hl _ Hi). lia.
Qed.

(** X11: an image with at least as many targets as predictions has every
    prediction matched: its prediction indices are [0, 1, .., Q-1]. *)
Theorem forward_all_predictions_matched B Q K self outputs targets :
  lsa_contract → valid_batch B Q K outputs targets →
  finite_costs self outputs targets →
  ∃ res, forward self outputs targets = Ok res
    ∧ ∀ i, i < B → Q ≤ num_targets targets i →
        ∃ ti, res !! i
              = Some [Int64Tensor (Z.of_nat <$> seq 0 Q); Int64Tensor ti].
Proof.
  intros Hlsa Hvalid Hfin.
  destruct (forward_valid_result B Q K self outputs targets Hlsa Hvalid Hfin)
    as (res & Hres & Hlen & Hall).
  exists res. split; [done|]. intros i Hi Hle.
  destruct (Hall i Hi) as (ri & ci & Hi' & Hr & _ & Hs & Hlt & _).
  cbn in *. exists (Z.of_nat <$> ci). rewrite Hi'. unfold as_tensor_int64.
  rewrite (sorted_range_seq ri Q); [done..|lia].
Qed.

End Extras.

(** ** The matcher over the reals, on the sample batches *)

(** Over the reals the test [w != 0] is the comparison with zero, so the
    constructor raises exactly for the weights [(0, 0, 0)]. *)
Lemma R_init_raises_iff_zero (wc wb wg : R) :
  HungarianMatcher_init wc wb wg = Raise AssertionError
  ↔ wc = 0%R ∧ wb = 0%R ∧ wg = 0%R.
Proof.
  unfold HungarianMatcher_init. cbn [nonzero R_scalar].
  repeat case_bool_decide; cbn; split; try done;
    try (intros (? & ? & ?); done).
Qed.

Lemma R_init_ones : HungarianMatcher_init 1%R 1%R 1%R = Ok sample_matcher.
Proof.
  unfold HungarianMatcher_init. cbn [nonzero R_scalar].
  rewrite (bool_decide_eq_true_2 (1%R ≠ 0%R)) by lra. reflexivity.
Qed.

Lemma R_lsa_contract : lsa_contract (F := R).
Proof. apply exhaustive_lsa_contract. Qed.

Lemma R_all_finite (m : list (list R)) : all_finite m.
Proof. apply Forall_true. intros row. by apply Forall_true. Qed.

Lemma sample_valid : valid_batch 2 2 2 sample_outputs sample_targets.
Proof.
  unfold valid_batch, shape3, shape2, valid_target. cbn.
  split_and!; repeat constructor; cbn; lia.
Qed.

Lemma sample_finite :
  finite_costs sample_matcher sample_outputs sample_targets.
Proof. apply Forall_true. intros m. apply R_all_finite. Qed.

Lemma single_valid : valid_batch 1 1 1 single_outputs single_targets.
Proof.
  unfold valid_batch, shape3, shape2, valid_target. cbn.
  split_and!; repeat constructor; cbn; lia.
Qed.

Lemma forward_returns_index_pairs_witness :
  forward sample_matcher single_outputs single_targets
    = Ok [[Int64Tensor [0%Z]; Int64Tensor [0%Z]]]
  ∧ Forall (λ tup, ∃ i j : list Z, tup = [Int64Tensor i; Int64Tensor j])
      [[Int64Tensor (F := R) [0%Z]; Int64Tensor [0%Z]]].
Proof.
  split; [reflexivity|].
  apply (forward_returns_index_pairs sample_matcher single_outputs
           single_targets).
  reflexivity.
Defined.

Lemma cost_class_is_focal_witness :
  valid_batch 2 2 2 sample_outputs sample_targets
  ∧ ∃ costs,
      forward_costs sample_matcher sample_outputs sample_targets = Ok costs
      ∧ ∀ r g row c,
          mjoin (pred_logits sample_outputs) !! r = Some row →
          mjoin (labels <$> sample_targets) !! g = Some c →
          ∃ x, row !! Z.to_nat c = Some x
               ∧ t_cost_class costs !! r ≫= (.!! g)
                 = Some (focal_cost (sigmoid x)).
Proof.
  split; [apply sample_valid|].
  apply (cost_class_is_focal 2 2 2 sample_matcher sample_outputs
           sample_targets).
  apply sample_valid.
Defined.

Lemma forward_match_count_witness :
  valid_batch 2 2 2 sample_outputs sample_targets
  ∧ ∃ res, forward sample_matcher sample_outputs sample_targets = Ok res
      ∧ length res = 2
      ∧ ∀ i, i < 2 →
          ∃ pi ti, res !! i = Some [Int64Tensor pi; Int64Tensor ti]
            ∧ length pi = 2 `min` num_targets sample_targets i
            ∧ length ti = 2 `min` num_targets sample_targets i
            ∧ (num_targets sample_targets i ≤ 2 →
               ∀ t, t < num_targets sample_targets i → Z.of_nat t ∈ ti).
Proof.
  split; [apply sample_valid|].
  apply (forward_match_count 2 2 2 sample_matcher sample_outputs
           sample_targets).
  - apply R_lsa_contract.
  - apply sample_valid.
  - apply sample_finite.
Defined.

Lemma forward_no_targets_no_matches_witness :
  num_targets sample_targets 1 = 0
  ∧ ∃ res, forward sample_matcher sample_outputs sample_targets = Ok res
      ∧ ∀ i, i < 2 → num_targets sample_targets i = 0 →
          res !! i = Some [Int64Tensor []; Int64Tensor []].
Proof.
  split; [reflexivity|].
  apply (forward_no_targets_no_matches 2 2 2 sample_matcher sample_outputs
           sample_targets).
  - apply R_lsa_contract.
  - apply sample_valid.
  - apply sample_finite.
Defined.

Lemma solver_cost_is_weighted_sum_witness :
  valid_batch 2 2 2 sample_outputs sample_targets
  ∧ ∃ ms, solver_inputs sample_matcher sample_outputs sample_targets = Ok ms
      ∧ length ms = 2
      ∧ ∀ i tgt, sample_targets !! i = Some tgt →
          ∃ m, ms !! i = Some m ∧ shape2 m 2 (length (labels tgt))
            ∧ ∀ q t, q < 2 → t < length (labels tgt) →
                m !! q ≫= (.!! t)
                = Some (weighted_cost sample_matcher
                    (class_cost_at (pred_logits sample_outputs !!! i) tgt q t)
                    (bbox_cost_at (pred_polys sample_outputs !!! i) tgt q t)
                    (giou_cost_at (pred_boxes sample_outputs !!! i) tgt q t)).
Proof.
  split; [apply sample_valid|].
  apply (solver_cost_is_weighted_sum 2 2 2 sample_matcher sample_outputs
           sample_targets).
  - intros x y. apply Rplus_comm.
  - apply sample_valid.
Defined.

Lemma forward_refines_per_image_witness :
  valid_batch 2 2 2 sample_outputs sample_targets
  ∧ solver_inputs sample_matcher sample_outputs sample_targets
    = Ok (image_costs sample_matcher sample_outputs sample_targets)
  ∧ forward sample_matcher sample_outputs sample_targets
    = forward_per_image sample_matcher sample_outputs sample_targets
  ∧ ∃ costs,
      forward_costs sample_matcher sample_outputs sample_targets = Ok costs
      ∧ ∀ i q t, i < 2 → q < 2 → t < num_targets sample_targets i →
          (image_costs sample_matcher sample_outputs sample_targets !! i
             ≫= (.!! q)) ≫= (.!! t)
          = C costs !! (i * 2 + q) ≫= (.!! (offset sample_targets i + t)).
Proof.
  split; [apply sample_valid|].
  apply (forward_refines_per_image 2 2 2 sample_matcher sample_outputs
           sample_targets).
  apply sample_valid.
Defined.

Lemma dense_valid : valid_batch 2 3 2 dense_outputs dense_targets.
Proof.
  unfold valid_batch, shape3, shape2, valid_target. cbn.
  split_and!; repeat constructor; cbn; lia.
Qed.

Lemma dense_finite : finite_costs sample_matcher dense_outputs dense_targets.
Proof. apply Forall_true. intros m. apply R_all_finite. Qed.

Lemma forward_indices_distinct_in_range_witness :
  valid_batch 2 3 2 dense_outputs dense_targets
  ∧ num_targets dense_targets 0 = 2 ∧ num_targets dense_targets 1 = 3
  ∧ ∃ res, forward sample_matcher dense_outputs dense_targets = Ok res
      ∧ ∀ i, i < 2 →
          ∃ pi ti, res !! i = Some [Int64Tensor pi; Int64Tensor ti]
            ∧ NoDup pi ∧ NoDup ti
            ∧ Forall (λ p, (0 ≤ p < Z.of_nat 3)%Z) pi
            ∧ Forall
                (λ t, (0 ≤ t < Z.of_nat (num_targets dense_targets i))%Z)
                ti.
Proof.
  split; [apply dense_valid|]. split; [reflexivity|]. split; [reflexivity|].
  apply (forward_indices_distinct_in_range 2 3 2 sample_matcher dense_outputs
           dense_targets).
  - apply R_lsa_contract.
  - apply dense_valid.
  - apply dense_finite.
Defined.

Lemma forward_prediction_indices_increasing_witness :
  valid_batch 2 3 2 dense_outputs dense_targets
  ∧ num_targets dense_targets 0 = 2 ∧ num_targets dense_targets 1 = 3
  ∧ ∃ res, forward sample_matcher dense_outputs dense_targets = Ok res
      ∧ ∀ i, i < 2 →
          ∃ pi ti, res !! i = Some [Int64Tensor pi; Int64Tensor ti]
            ∧ StronglySorted Z.lt pi.
Proof.
  split; [apply dense_valid|]. split; [reflexivity|]. split; [reflexivity|].
  apply (forward_prediction_indices_increasing 2 3 2 sample_matcher
           dense_outputs dense_targets).
  - apply R_lsa_contract.
  - apply dense_valid.
  - apply dense_finite.
Defined.

(** ** The further properties on the sample batches *)

Lemma swapped_valid : valid_batch 2 2 2 swapped_outputs swapped_targets.
Proof.
  unfold valid_batch, shape3, shape2, valid_target. cbn.
  split_and!; repeat constructor; cbn; lia.
Qed.

Lemma pair_valid : valid_batch 2 1 1 pair_outputs pair_targets.
Proof.
  unfold valid_batch, shape3, shape2, valid_target. cbn.
  split_and!; repeat constructor; cbn; lia.
Qed.

Lemma build_matcher_weights_witness :
  build_matcher sample_args = Ok sample_matcher
  ∧ ∃ ms, solver_inputs sample_matcher sample_outputs sample_targets = Ok ms
      ∧ ∀ i tgt, sample_targets !! i = Some tgt →
          ∃ m, ms !! i = Some m
            ∧ ∀ q t, q < 2 → t < length (labels tgt) →
                m !! q ≫= (.!! t)
                = Some (add
                    (add (mul (set_cost_bbox sample_args)
                            (bbox_cost_at (pred_polys sample_outputs !!! i)
                               tgt q t))
                         (mul (set_cost_class sample_args)
                            (class_cost_at (pred_logits sample_outputs !!! i)
                               tgt q t)))
                    (mul (set_cost_giou sample_args)
                       (giou_cost_at (pred_boxes sample_outputs !!! i)
                          tgt q t))).
Proof.
  split; [apply R_init_ones|].
  apply (build_matcher_weights 2 2 2 sample_args sample_matcher
           sample_outputs sample_targets).
  - apply R_init_ones.
  - apply sample_valid.
Defined.

Lemma forward_empty_batch_raises_witness :
  raises (forward sample_matcher sample_outputs []).
Proof.
  apply (forward_empty_batch_raises sample_matcher sample_outputs []).
  left. reflexivity.
Defined.

Lemma forward_surplus_targets_raise_witness :
  raises (forward sample_matcher sample_outputs
            (sample_targets ++ sample_targets)).
Proof.
  apply (forward_surplus_targets_raise sample_matcher sample_outputs
           (sample_targets ++ sample_targets)).
  cbn. lia.
Defined.

Lemma forward_result_count_witness :
  forward sample_matcher pair_outputs pair_targets
    = Ok [[Int64Tensor [0%Z]; Int64Tensor [0%Z]];
          [Int64Tensor []; Int64Tensor []]]
  ∧ length [[Int64Tensor (F := R) [0%Z]; Int64Tensor [0%Z]];
            [Int64Tensor []; Int64Tensor []]]
    = length pair_targets.
Proof.
  split; [reflexivity|].
  apply (forward_result_count sample_matcher pair_outputs pair_targets).
  reflexivity.
Defined.

Lemma forward_raises_only_from_solver_witness :
  forward (E := refusing_externals) sample_matcher single_outputs
    single_targets = Raise ValueError
  ∧ ∃ i m,
      image_costs (Externals0 := refusing_externals) sample_matcher
        single_outputs single_targets !! i = Some m
      ∧ linear_sum_assignment (Externals := refusing_externals) m
        = Raise ValueError.
Proof.
  split; [reflexivity|].
  apply (forward_raises_only_from_solver (Externals0 := refusing_externals)
           1 1 1 sample_matcher single_outputs single_targets ValueError).
  - apply single_valid.
  - reflexivity.
Defined.

Lemma forward_label_out_of_range_raises_witness :
  raises (forward sample_matcher sample_outputs bad_label_targets).
Proof.
  apply (forward_label_out_of_range_raises 2 sample_matcher sample_outputs
           bad_label_targets
           {| labels := [2%Z]; polys := [poly8 0.5 0.5 0.2 0.2]%R;
              boxes := [box4 0.5 0.5 0.2 0.2]%R; theta := [[0%R]] |}
           2%Z).
  - discriminate.
  - cbn. repeat constructor.
  - left.
  - left.
  - lia.
Defined.

Lemma forward_negative_labels_wrap_witness :
  wrap_labels 2 <$> negative_targets = sample_targets
  ∧ forward sample_matcher sample_outputs negative_targets
    = forward sample_matcher sample_outputs
        (wrap_labels 2 <$> negative_targets).
Proof.
  split; [reflexivity|].
  apply (forward_negative_labels_wrap 2 sample_matcher sample_outputs
           negative_targets).
  cbn. repeat constructor.
Defined.

Lemma forward_ignores_surplus_images_witness :
  prefix_batch 2 2 2 sample_outputs (take 1 sample_targets)
  ∧ forward sample_matcher sample_outputs (take 1 sample_targets)
    = forward sample_matcher
        (take_images (length (take 1 sample_targets)) sample_outputs)
        (take 1 sample_targets).
Proof.
  assert (prefix_batch 2 2 2 sample_outputs (take 1 sample_targets)) as Hp.
  { unfold prefix_batch, shape3, shape2, valid_target. cbn.
    split_and!; repeat constructor; cbn; lia. }
  split; [exact Hp|].
  apply (forward_ignores_surplus_images 2 2 2 sample_matcher sample_outputs
           (take 1 sample_targets)).
  exact Hp.
Defined.

Lemma forward_image_independent_witness :
  forward sample_matcher single_outputs single_targets
    = Ok [[Int64Tensor [0%Z]; Int64Tensor [0%Z]]]
  ∧ forward sample_matcher pair_outputs pair_targets
    = Ok [[Int64Tensor [0%Z]; Int64Tensor [0%Z]];
          [Int64Tensor []; Int64Tensor []]]
  ∧ [[Int64Tensor (F := R) [0%Z]; Int64Tensor [0%Z]]] !! 0
    = [[Int64Tensor [0%Z]; Int64Tensor [0%Z]];
       [Int64Tensor []; Int64Tensor []]] !! 0.
Proof.
  split; [reflexivity|]. split; [reflexivity|].
  apply (forward_image_independent 1 2 1 1 1 1 sample_matcher
           single_outputs pair_outputs single_targets pair_targets).
  - apply single_valid.
  - apply pair_valid.
  - lia.
  - lia.
  - reflexivity.
  - reflexivity.
  - reflexivity.
  - reflexivity.
  - reflexivity.
  - reflexivity.
Defined.

Lemma forward_cat_batches_witness :
  forward sample_matcher (cat_outputs sample_outputs swapped_outputs)
    (sample_targets ++ swapped_targets)
  = (res1 ← forward sample_matcher sample_outputs sample_targets;
     res2 ← forward sample_matcher swapped_outputs swapped_targets;
     mret (res1 ++ res2)).
Proof.
  apply (forward_cat_batches 2 2 2 2 sample_matcher sample_outputs
           swapped_outputs sample_targets swapped_targets).
  - apply sample_valid.
  - apply swapped_valid.
Defined.

Lemma forward_all_predictions_matched_witness :
  1 ≤ num_targets single_targets 0
  ∧ ∃ res, forward sample_matcher single_outputs single_targets = Ok res
      ∧ ∀ i, i < 1 → 1 ≤ num_targets single_targets i →
          ∃ ti, res !! i
                = Some [Int64Tensor (Z.of_nat <$> seq 0 1); Int64Tensor ti].
Proof.
  split; [cbn; lia|].
  apply (forward_all_predictions_matched 1 1 1 sample_matcher single_outputs
           single_targets).
  - apply R_lsa_contract.
  - apply single_valid.
  - apply Forall_true. intros m. apply R_all_finite.
Defined.
